(** * go.events: a shallow embedding of [events.go] and its specification

  The emitter of [events.go] owns a [sync.Map] from event names to slices
  of listeners and an integer capacity.  Every method is embedded as a
  function on an explicit [emitter] state; methods that return a value
  return it next to the new state.  The mutex only serialises callers and
  has no sequential content, so it is not part of the state.

  A listener is a Go [func(...interface{})]: it is either [nil] or a code
  pointer with a body.  A body acts on a world outside the emitter and
  either returns or panics.

  Listeners that call back into the emitter while [Emit] runs need more:
  the module [Live] keeps the backing arrays of the slices in a heap and
  runs the body of a listener on the whole machine state.  The emitter
  with lists is that emitter seen through its slices, for listeners that
  leave the emitter alone ([lists_refine_memory]). *)

From stdpp Require Import gmap strings list fin_maps.

Local Open Scope Z_scope.

(** ** Constants of the package *)

Definition Version : string := "0.0.1".
Definition DefaultMaxListeners : Z := 0.
(** [EnableWarning] is the constant [false]: both [log.Printf] calls of the
  package are guarded by it and are dead code. *)
Definition EnableWarning : bool := false.

Abbreviation EventName := string.

(** ** The operations of [sync.Map] used by the package *)

Section SyncMap.
Context {V : Type}.
Implicit Type m : gmap EventName V.

Definition Map_Load (key : EventName) m : option V := m !! key.

Definition Map_Store (key : EventName) (value : V) m : gmap EventName V :=
  <[key := value]> m.

(** [LoadOrStore] returns the existing value if present; otherwise it
    stores and returns the given value. The flag is [loaded]. *)
Definition Map_LoadOrStore (key : EventName) (value : V) m
  : V * bool * gmap EventName V :=
  match m !! key with
  | Some actual => (actual, true, m)
  | None => (value, false, <[key := value]> m)
  end.

Definition Map_Delete (key : EventName) m : gmap EventName V := delete key m.

(** [Range] with a callback that always answers [true] visits every entry
    once, in an order the map chooses. *)
Definition Map_Range {B : Type} (f : EventName → V → B → B) (b : B) m : B :=
  map_fold f b m.
End SyncMap.

(** ** Listeners *)

Section Events.
Context {Value World : Type}.

(** What a call of a listener does to the world around the emitter. *)
Inductive Outcome : Type :=
| Returned (w : World)
| Panicked (w : World).

(** [type Listener func(...interface{})]: the nil func, or a func value
    with the code pointer that [reflect.ValueOf(l).Pointer()] reports and
    the behaviour of its body.  Go cannot compare func values; the pointer
    is all the package looks at to tell listeners apart. *)
Inductive Listener : Type :=
| NilListener
| Func (code : positive) (body : list Value → World → Outcome).

(** [reflect.ValueOf(l).Pointer()]: 0 for the nil func. *)
Definition Pointer (l : Listener) : N :=
  match l with
  | NilListener => 0%N
  | Func code _ => Npos code
  end.

(** [listener(data...)]: calling the nil func panics. *)
Definition invoke (l : Listener) (data : list Value) (w : World) : Outcome :=
  match l with
  | NilListener => Panicked w
  | Func _ body => body data w
  end.

(** ** The emitter *)

Record emitter : Type := mkEmitter {
  maxListeners : Z;
  evtListeners : gmap EventName (list Listener)
}.

Definition New : emitter := mkEmitter DefaultMaxListeners ∅.

Definition AddListener (evt : EventName) (listeners : list Listener)
    (e : emitter) : emitter :=
  let '(currentListeners, _, stored) :=
    Map_LoadOrStore evt [] (evtListeners e) in
  if (0 <? maxListeners e) &&
     (maxListeners e <=? Z.of_nat (length currentListeners))
  then mkEmitter (maxListeners e) stored
  else mkEmitter (maxListeners e)
         (Map_Store evt (currentListeners ++ listeners) stored).

(** One call made by [Emit]: the listener and the arguments it was given. *)
Definition Call : Type := Listener * list Value.

(** The [for _, listener := range listeners] loop of [Emit]: a panic
    leaves the loop, and the listeners after it are not called. *)
Fixpoint range_call (listeners : list Listener) (data : list Value)
    (w : World) : list Call * Outcome :=
  match listeners with
  | [] => ([], Returned w)
  | listener :: rest =>
      match invoke listener data w with
      | Returned w' =>
          let '(cs, o) := range_call rest data w' in
          ((listener, data) :: cs, o)
      | Panicked w' => ([(listener, data)], Panicked w')
      end
  end.

Record Emitted : Type := mkEmitted {
  emitter_after : emitter;
  calls : list Call;
  outcome : Outcome
}.

Definition Emit (evt : EventName) (data : list Value) (e : emitter)
    (w : World) : Emitted :=
  match Map_Load evt (evtListeners e) with
  | Some listeners =>
      let '(cs, o) := range_call listeners data w in mkEmitted e cs o
  | None => mkEmitted e [] (Returned w)
  end.

Definition EventNames (e : emitter) : list EventName :=
  Map_Range (λ key _ names, names ++ [key]) [] (evtListeners e).

Definition GetMaxListeners (e : emitter) : Z := maxListeners e.

Definition ListenerCount (evt : EventName) (e : emitter) : Z :=
  match Map_Load evt (evtListeners e) with
  | Some listeners => Z.of_nat (length listeners)
  | None => 0
  end.

(** The nil slice returned for an absent name is the empty list. *)
Definition Listeners (evt : EventName) (e : emitter) : list Listener :=
  match Map_Load evt (evtListeners e) with
  | Some listeners => listeners
  | None => []
  end.

Definition On (evt : EventName) (listeners : list Listener) (e : emitter)
  : emitter := AddListener evt listeners e.

Definition Once (evt : EventName) (listeners : list Listener) (e : emitter)
  : emitter := AddListener evt listeners e.

Definition RemoveAllListeners (evt : EventName) (e : emitter)
  : bool * emitter :=
  let deleted := Map_Delete evt (evtListeners e) in
  let found := bool_decide (is_Some (Map_Load evt deleted)) in
  (negb found, mkEmitter (maxListeners e) deleted).

(** The search loop of [RemoveListener]: the index of the first listener
    whose pointer equals [p], counting from [i]. *)
Fixpoint first_match (p : N) (listeners : list Listener) (i : nat)
  : option nat :=
  match listeners with
  | [] => None
  | l :: rest =>
      if (Pointer l =? p)%N then Some i else first_match p rest (S i)
  end.

(** [append(listeners[:i], listeners[i+1:]...)] shifts the tail down by
    one inside the backing array; the slice that is stored holds the
    elements before [i] followed by those after it. *)
Definition RemoveListener (evt : EventName) (listener : Listener)
    (e : emitter) : bool * emitter :=
  match Map_Load evt (evtListeners e) with
  | Some listeners =>
      match first_match (Pointer listener) listeners 0 with
      | Some i =>
          (true,
           mkEmitter (maxListeners e)
             (Map_Store evt (take i listeners ++ drop (S i) listeners)
                (evtListeners e)))
      | None => (false, e)
      end
  | None => (false, e)
  end.

Definition Clear (e : emitter) : emitter := mkEmitter (maxListeners e) ∅.

Definition SetMaxListeners (n : Z) (e : emitter) : emitter :=
  if n <? 0 then e else mkEmitter n (evtListeners e).

Definition Len (e : emitter) : Z :=
  Map_Range (λ _ _ length, length + 1) 0 (evtListeners e).

(** ** Sequences of calls, used to state the properties *)

(** The world a call left behind. *)
Definition world_of (o : Outcome) : World :=
  match o with Returned w | Panicked w => w end.

(** A registration is one call [AddListener(evt, listeners...)]. *)
Definition Registration : Type := EventName * list Listener.

Definition register (e : emitter) (r : Registration) : emitter :=
  AddListener r.1 r.2 e.

Definition register_all (regs : list Registration) (e : emitter) : emitter :=
  foldl register e regs.

(** The listeners passed for [name] by a sequence of registrations, in
    call order and, within a call, in argument order. *)
Fixpoint added (name : EventName) (regs : list Registration)
  : list Listener :=
  match regs with
  | [] => []
  | (evt, listeners) :: rest =>
      if bool_decide (evt = name) then listeners ++ added name rest
      else added name rest
  end.

(** How many listeners a sequence of registrations passes for [name]. *)
Fixpoint total_added (name : EventName) (regs : list Registration) : Z :=
  match regs with
  | [] => 0
  | (evt, listeners) :: rest =>
      if bool_decide (evt = name)
      then Z.of_nat (length listeners) + total_added name rest
      else total_added name rest
  end.

(** Several calls of [AddListener] for one name, one per batch. *)
Definition add_batches (name : EventName) (batches : list (list Listener))
    (e : emitter) : emitter :=
  foldl (λ e' batch, AddListener name batch e') e batches.

(** The calls [Emit] makes when every listener of the sequence is called
    once, in order, with the same arguments. *)
Definition each_once (listeners : list Listener) (data : list Value)
  : list Call := map (λ l, (l, data)) listeners.

(** Two listeners are the same for [RemoveListener] when [reflect]
    reports the same pointer for both. *)
Definition same_listener (l1 l2 : Listener) : Prop :=
  Pointer l1 = Pointer l2.

(** A listener that never panics on the given arguments. *)
Definition returns_on (data : list Value) (l : Listener) : Prop :=
  ∀ w, ∃ w', invoke l data w = Returned w'.

(** [Emit] calls every listener passed for [name] exactly once, in the
    order of registration, with the payload. *)
Definition invokes_each_once (regs : list Registration) (name : EventName)
    (data : list Value) (w : World) : Prop :=
  calls (Emit name data (register_all regs New) w)
  = each_once (added name regs) data.

(** With MaxListeners set to 2 on a fresh emitter, the batches leave
    exactly 2 listeners for [name]. *)
Definition retains_two (name : EventName) (batches : list (list Listener))
  : Prop :=
  ListenerCount name (add_batches name batches (SetMaxListeners 2 New)) = 2.

End Events.

(** ** Listeners of the README and of the scenarios of the specification,
    with strings as payload values and a shared sequence of strings as the
    world *)

Module Sample.
Abbreviation listener := (@Listener string (list string)).

(** A listener that records its tag into the shared sequence. *)
Definition recorder (code : positive) (tag : string) : listener :=
  Func code (λ _ w, Returned (w ++ [tag])).

(** The [user_joined] listener of the README: it reads [payload[0]] and
    [payload[1]] as strings, which panics on a shorter payload. *)
Definition user_joined : listener :=
  Func 9 (λ payload w,
    match payload with
    | user :: room :: _ =>
        Returned (w ++ [user +:+ " joined the room: " +:+ room])
    | _ => Panicked w
    end).

Definition L1 : listener := recorder 1 "L1".
Definition L2 : listener := recorder 2 "L2".
Definition L3 : listener := recorder 3 "L3".

Definition fresh : @emitter string (list string) := New.
End Sample.


(** ** Programs: sequences of method calls on one emitter *)

Section Operations.
Context {Value World : Type}.

(** One call of a method of the emitter.  [Emit] carries the world it is
    run in. *)
Inductive Op : Type :=
| OpAddListener (evt : EventName) (listeners : list (@Listener Value World))
| OpOn (evt : EventName) (listeners : list (@Listener Value World))
| OpOnce (evt : EventName) (listeners : list (@Listener Value World))
| OpEmit (evt : EventName) (data : list Value) (w : World)
| OpRemoveAllListeners (evt : EventName)
| OpRemoveListener (evt : EventName) (listener : @Listener Value World)
| OpClear
| OpSetMaxListeners (n : Z).

(** The emitter after one call. *)
Definition step (e : @emitter Value World) (op : Op) : emitter :=
  match op with
  | OpAddListener evt listeners => AddListener evt listeners e
  | OpOn evt listeners => On evt listeners e
  | OpOnce evt listeners => Once evt listeners e
  | OpEmit evt data w => emitter_after (Emit evt data e w)
  | OpRemoveAllListeners evt => (RemoveAllListeners evt e).2
  | OpRemoveListener evt listener => (RemoveListener evt listener e).2
  | OpClear => Clear e
  | OpSetMaxListeners n => SetMaxListeners n e
  end.

Definition run (ops : list Op) (e : @emitter Value World) : emitter :=
  foldl step e ops.

(** A call that registers passes at most [k] listeners. *)
Definition passes_at_most (k : nat) (op : Op) : Prop :=
  match op with
  | OpAddListener _ listeners | OpOn _ listeners | OpOnce _ listeners =>
      (length listeners ≤ k)%nat
  | _ => True
  end.

(** A call other than [SetMaxListeners]. *)
Definition keeps_capacity (op : Op) : Prop :=
  match op with
  | OpSetMaxListeners _ => False
  | _ => True
  end.

(** The capacity guard of [AddListener] for a name. *)
Definition at_capacity (name : EventName) (e : @emitter Value World) : Prop :=
  0 < maxListeners e ∧ maxListeners e ≤ ListenerCount name e.

(** Two emitters for which [Emit(name, data...)], run in the world [w],
    makes the same calls and ends the same way. *)
Definition same_emission (name : EventName) (data : list Value) (w : World)
    (e1 e2 : @emitter Value World) : Prop :=
  calls (Emit name data e1 w) = calls (Emit name data e2 w) ∧
  outcome (Emit name data e1 w) = outcome (Emit name data e2 w).

End Operations.


(** ** The emitter in memory, with listeners that can call it back

    The definitions above keep the listeners of a name as a list and let a
    listener act on a world outside the emitter.  In the program the value
    stored for a name is a slice: a pointer to a backing array with a
    length and a capacity.  [Emit] copies that header once and then reads
    the array element by element, while the listeners it calls are free to
    call the emitter, whose [append] writes into the same array.  The
    definitions of this module keep the backing arrays in a heap and run
    the body of a listener on the whole machine state, emitter included. *)

Module Live.
Section Machine.
Context {Value World : Type}.

(** A func value: nil, or a pointer [addr] to a closure whose first word
    is the [code] pointer.  Two closures of one function literal have
    different addresses and the same code. *)
Inductive FuncValue : Type :=
| NilFunc
| Closure (addr code : positive).

(** [reflect.ValueOf(f).Pointer()]: the code pointer, 0 for nil. *)
Definition code_pointer (f : FuncValue) : N :=
  match f with
  | NilFunc => 0%N
  | Closure _ code => Npos code
  end.

(** A slice header; the array is named by its address in the heap. *)
Record slice : Type := mkSlice {
  array : N;
  len : nat;
  cap : nat
}.

(** [[]Listener{}]: no elements, no capacity, no array of its own. *)
Definition empty_slice : slice := mkSlice 0 0 0.

(** The state of the program: the two fields of the emitter, the backing
    arrays, the next free address, and everything else. *)
Record machine : Type := mkMachine {
  maxListeners : Z;
  evtListeners : gmap EventName slice;
  heap : gmap N (list FuncValue);
  next_array : N;
  world : World
}.

Definition set_evtListeners (r : gmap EventName slice) (m : machine)
  : machine :=
  mkMachine (maxListeners m) r (heap m) (next_array m) (world m).

Definition set_world (w : World) (m : machine) : machine :=
  mkMachine (maxListeners m) (evtListeners m) (heap m) (next_array m) w.

Definition New (w : World) : machine :=
  mkMachine DefaultMaxListeners ∅ ∅ 1 w.

(** The cells of the array at an address, and the elements of a slice. *)
Definition cells (h : gmap N (list FuncValue)) (a : N) : list FuncValue :=
  default [] (h !! a).

Definition elems (h : gmap N (list FuncValue)) (s : slice)
  : list FuncValue :=
  take (len s) (cells h (array s)).

(** How the runtime chooses the capacity of a grown array, from the old
    capacity and the length needed, is left open. *)
Variable grow : nat → nat → nat.

(** [append(s, values...)]: when the capacity suffices the values are
    written into the array of [s], after its elements, and the result
    shares that array; otherwise a new array is allocated that holds the
    elements of [s] followed by the values. *)
Definition append (s : slice) (values : list FuncValue) (m : machine)
  : slice * machine :=
  let n := (len s + length values)%nat in
  if decide (n ≤ cap s)%nat then
    (mkSlice (array s) n (cap s),
     mkMachine (maxListeners m) (evtListeners m)
       (alter (list_inserts (len s) values) (array s) (heap m))
       (next_array m) (world m))
  else
    let c := (n `max` grow (cap s) n)%nat in
    (mkSlice (next_array m) n c,
     mkMachine (maxListeners m) (evtListeners m)
       (<[next_array m :=
            elems (heap m) s ++ values ++ replicate (c - n) NilFunc]>
          (heap m))
       (next_array m + 1)%N (world m)).

Definition AddListener (evt : EventName) (listeners : list FuncValue)
    (m : machine) : machine :=
  let '(currentListeners, _, stored) :=
    Map_LoadOrStore evt empty_slice (evtListeners m) in
  if (0 <? maxListeners m) &&
     (maxListeners m <=? Z.of_nat (len currentListeners))
  then set_evtListeners stored m
  else
    let '(appended, m') :=
      append currentListeners listeners (set_evtListeners stored m) in
    set_evtListeners (Map_Store evt appended (evtListeners m')) m'.

(** The bodies of the closures of the program, by closure address.  A
    body runs on the whole machine, so it can call the emitter. *)
Variable bodies : positive → list Value → machine → @Outcome machine.

(** [listener(data...)] *)
Definition call (f : FuncValue) (data : list Value) (m : machine)
  : @Outcome machine :=
  match f with
  | NilFunc => Panicked m
  | Closure addr _ => bodies addr data m
  end.

Definition Call : Type := FuncValue * list Value.

(** The loop of [Emit] over a slice header copied before the loop: [n]
    iterations are left, the next index is [i], and the element is read
    from the array at [a] as it is when the iteration starts.  An index
    beyond the array does not occur, since arrays never shrink (see
    [reads_in_range]); the definition reads nil there. *)
Fixpoint range_array (n i : nat) (a : N) (data : list Value) (m : machine)
  : list Call * @Outcome machine :=
  match n with
  | O => ([], Returned m)
  | S n' =>
      let listener := default NilFunc (cells (heap m) a !! i) in
      match call listener data m with
      | Returned m' =>
          let '(cs, o) := range_array n' (S i) a data m' in
          ((listener, data) :: cs, o)
      | Panicked m' => ([(listener, data)], Panicked m')
      end
  end.

(** Every read of that loop is inside the array. *)
Fixpoint reads_in_range (n i : nat) (a : N) (data : list Value) (m : machine)
  : Prop :=
  match n with
  | O => True
  | S n' =>
      (i < length (cells (heap m) a))%nat ∧
      match call (default NilFunc (cells (heap m) a !! i)) data m with
      | Returned m' => reads_in_range n' (S i) a data m'
      | Panicked _ => True
      end
  end.

(** [Emit]: the calls it makes and how it ends. *)
Definition Emit (evt : EventName) (data : list Value) (m : machine)
  : list Call * @Outcome machine :=
  match Map_Load evt (evtListeners m) with
  | Some listeners =>
      range_array (len listeners) 0 (array listeners) data m
  | None => ([], Returned m)
  end.

Definition EventNames (m : machine) : list EventName :=
  Map_Range (λ key _ names, names ++ [key]) [] (evtListeners m).

Definition GetMaxListeners (m : machine) : Z := maxListeners m.

Definition ListenerCount (evt : EventName) (m : machine) : Z :=
  match Map_Load evt (evtListeners m) with
  | Some listeners => Z.of_nat (len listeners)
  | None => 0
  end.

(** The elements of the slice that [Listeners] returns. *)
Definition Listeners (evt : EventName) (m : machine) : list FuncValue :=
  match Map_Load evt (evtListeners m) with
  | Some listeners => elems (heap m) listeners
  | None => []
  end.

Definition On (evt : EventName) (listeners : list FuncValue) (m : machine)
  : machine := AddListener evt listeners m.

Definition Once (evt : EventName) (listeners : list FuncValue) (m : machine)
  : machine := AddListener evt listeners m.

Definition RemoveAllListeners (evt : EventName) (m : machine)
  : bool * machine :=
  let deleted := Map_Delete evt (evtListeners m) in
  let found := bool_decide (is_Some (Map_Load evt deleted)) in
  (negb found, set_evtListeners deleted m).

Fixpoint first_match (p : N) (listeners : list FuncValue) (i : nat)
  : option nat :=
  match listeners with
  | [] => None
  | l :: rest =>
      if (code_pointer l =? p)%N then Some i else first_match p rest (S i)
  end.

(** [append(listeners[:i], listeners[i+1:]...)]: the first operand is
    the slice cut to [i] elements, with the array and the capacity of
    [listeners]; the elements after [i] are copied down by one inside
    that array, and the cell of the last element keeps its value. *)
Definition RemoveListener (evt : EventName) (listener : FuncValue)
    (m : machine) : bool * machine :=
  match Map_Load evt (evtListeners m) with
  | Some listeners =>
      let values := elems (heap m) listeners in
      match first_match (code_pointer listener) values 0 with
      | Some i =>
          let '(appended, m') :=
            append (mkSlice (array listeners) i (cap listeners))
              (drop (S i) values) m in
          (true, set_evtListeners (Map_Store evt appended (evtListeners m')) m')
      | None => (false, m)
      end
  | None => (false, m)
  end.

(** A new, empty [sync.Map]; the arrays stay where they are. *)
Definition Clear (m : machine) : machine := set_evtListeners ∅ m.

Definition SetMaxListeners (n : Z) (m : machine) : machine :=
  if n <? 0 then m
  else mkMachine n (evtListeners m) (heap m) (next_array m) (world m).

Definition Len (m : machine) : Z :=
  Map_Range (λ _ _ length, length + 1) 0 (evtListeners m).

(** *** Sequences of registrations *)

Definition Registration : Type := EventName * list FuncValue.

Definition register (m : machine) (r : Registration) : machine :=
  AddListener r.1 r.2 m.

Definition register_all (regs : list Registration) (m : machine) : machine :=
  foldl register m regs.

Fixpoint added (name : EventName) (regs : list Registration)
  : list FuncValue :=
  match regs with
  | [] => []
  | (evt, listeners) :: rest =>
      if bool_decide (evt = name) then listeners ++ added name rest
      else added name rest
  end.

Definition add_batches (name : EventName) (batches : list (list FuncValue))
    (m : machine) : machine :=
  foldl (λ m' batch, AddListener name batch m') m batches.

Definition each_once (listeners : list FuncValue) (data : list Value)
  : list Call := map (λ l, (l, data)) listeners.

(** *** What a listener may do *)

(** The machine a call left behind. *)
Definition after (o : @Outcome machine) : machine :=
  match o with Returned m | Panicked m => m end.

Definition returned (o : @Outcome machine) : Prop :=
  match o with Returned _ => True | Panicked _ => False end.

(** Two machine states with the same emitter and the same arrays. *)
Definition same_emitter (m1 m2 : machine) : Prop :=
  maxListeners m1 = maxListeners m2 ∧ evtListeners m1 = evtListeners m2 ∧
  heap m1 = heap m2 ∧ next_array m1 = next_array m2.

(** A listener that, called with [data], leaves the emitter and the
    arrays as they are: it does not call a method that writes to the
    registry, neither directly nor through what it calls. *)
Definition quiet (data : list Value) (f : FuncValue) : Prop :=
  ∀ m, same_emitter (after (call f data m)) m.

(** *** States of the machine that the methods produce *)

(** Nothing is stored at or beyond the next free address. *)
Definition heap_ok (m : machine) : Prop :=
  ∀ a, (next_array m ≤ a)%N → heap m !! a = None.

(** A slice with capacity has an allocated array of that many cells. *)
Definition slice_ok (m : machine) (s : slice) : Prop :=
  (len s ≤ cap s)%nat ∧
  (cap s ≠ 0%nat →
     is_Some (heap m !! array s) ∧ length (cells (heap m) (array s)) = cap s).

(** Every slice of the registry is in order, and two names never share
    an array. *)
Definition wf (m : machine) : Prop :=
  heap_ok m ∧
  (∀ name s, evtListeners m !! name = Some s → slice_ok m s) ∧
  (∀ name1 name2 s1 s2,
     name1 ≠ name2 →
     evtListeners m !! name1 = Some s1 → evtListeners m !! name2 = Some s2 →
     cap s1 ≠ 0%nat → cap s2 ≠ 0%nat → array s1 ≠ array s2).

(** The arrays of [m1] are still there in [m2], with the same number of
    cells. *)
Definition arrays_kept (m1 m2 : machine) : Prop :=
  ∀ a, is_Some (heap m1 !! a) →
    is_Some (heap m2 !! a) ∧
    length (cells (heap m2) a) = length (cells (heap m1) a).

(** A step from [m1] to [m2] that frees nothing and allocates at free
    addresses only. *)
Definition keeps_memory (m1 m2 : machine) : Prop :=
  heap_ok m1 → heap_ok m2 ∧ arrays_kept m1 m2.

(** No call of a listener makes an array disappear or changes the number
    of its cells: memory in use is not freed, an array has a fixed size,
    and new arrays are put at free addresses. *)
Definition memory_safe : Prop :=
  ∀ addr data m, keeps_memory m (after (bodies addr data m)).

(** The capacity guard of [AddListener] for a name. *)
Definition at_capacity (name : EventName) (m : machine) : Prop :=
  0 < maxListeners m ∧ maxListeners m ≤ ListenerCount name m.

(** [Emit] calls every listener passed for [name] exactly once, in the
    order of registration, with the payload. *)
Definition invokes_each_once (regs : list Registration) (name : EventName)
    (data : list Value) (w : World) : Prop :=
  (Emit name data (register_all regs (New w))).1
  = each_once (added name regs) data.

(** With MaxListeners set to 2 on a fresh emitter the batches leave
    exactly 2 listeners for [name], and [Emit] then calls exactly these
    2. *)
Definition two_retained_two_called (name : EventName)
    (batches : list (list FuncValue)) (data : list Value) (w : World)
  : Prop :=
  let m := add_batches name batches (SetMaxListeners 2 (New w)) in
  ListenerCount name m = 2 ∧
  (Emit name data m).1 = each_once (Listeners name m) data.

End Machine.

(** The growth of small slices in Go's runtime: the length needed when
    it is more than twice the capacity, twice the capacity otherwise. *)
Definition doubling (capacity needed : nat) : nat :=
  if decide (2 * capacity < needed)%nat then needed else (2 * capacity)%nat.

End Live.

(** ** Closures that call the emitter back *)

Module LiveSample.
Import Live.

Abbreviation state := (@machine (list string)).

Definition L1 : FuncValue := Closure 1 1.
Definition L2 : FuncValue := Closure 2 2.
Definition L3 : FuncValue := Closure 3 3.
Definition L4 : FuncValue := Closure 4 4.
Definition SELF : FuncValue := Closure 5 5.
Definition SWAP : FuncValue := Closure 6 6.
Definition user_joined : FuncValue := Closure 9 9.

(** A body that appends its tag to the shared sequence. *)
Definition record (tag : string) (m : state) : state :=
  set_world (world m ++ [tag]) m.

(** The closures of the sample program:
    - [L1] to [L4] record their tag;
    - [SELF] records its tag and removes itself from the event [a];
    - [SWAP] records its tag, removes itself from [a] and registers [L4]
      for [a];
    - [user_joined] is the listener of the README that reads two payload
      values. *)
Definition bodies (addr : positive) (payload : list string) (m : state)
  : @Outcome state :=
  if decide (addr = 1%positive) then Returned (record "L1" m)
  else if decide (addr = 2%positive) then Returned (record "L2" m)
  else if decide (addr = 3%positive) then Returned (record "L3" m)
  else if decide (addr = 4%positive) then Returned (record "L4" m)
  else if decide (addr = 5%positive) then
    Returned (RemoveListener doubling "a" SELF (record "SELF" m)).2
  else if decide (addr = 6%positive) then
    Returned
      (AddListener doubling "a" [L4]
         (RemoveListener doubling "a" SWAP (record "SWAP" m)).2)
  else if decide (addr = 9%positive) then
    match payload with
    | user :: room :: _ =>
        Returned (record (user +:+ " joined the room: " +:+ room) m)
    | _ => Panicked m
    end
  else Panicked m.

Definition fresh : state := New [].

(** The bodies of the closures that leave the emitter alone, as bodies
    on the shared sequence. *)
Definition outer (addr : positive) (payload : list string) (w : list string)
  : @Outcome (list string) :=
  if decide (addr = 1%positive) then Returned (w ++ ["L1"])
  else if decide (addr = 2%positive) then Returned (w ++ ["L2"])
  else if decide (addr = 3%positive) then Returned (w ++ ["L3"])
  else if decide (addr = 4%positive) then Returned (w ++ ["L4"])
  else if decide (addr = 9%positive) then
    match payload with
    | user :: room :: _ =>
        Returned (w ++ [user +:+ " joined the room: " +:+ room])
    | _ => Panicked w
    end
  else Panicked w.
End LiveSample.

(** ** From the emitter in memory to the emitter with lists

    For closures whose bodies act on the world outside the emitter, a
    machine state is seen as an emitter of the first kind: every slice
    becomes the list of its elements and every closure the listener with
    its code pointer and its body. *)

Section Abstraction.
Context {Value World : Type}.

(** The bodies of closures outside the emitter, by closure address. *)
Variable outer : positive → list Value → World → @Outcome World.

(** Such a body run on the machine: it changes the world only. *)
Definition outside (addr : positive) (data : list Value)
    (m : @Live.machine World) : @Outcome (@Live.machine World) :=
  match outer addr data (Live.world m) with
  | Returned w => Returned (Live.set_world w m)
  | Panicked w => Panicked (Live.set_world w m)
  end.

Definition to_listener (f : Live.FuncValue) : @Listener Value World :=
  match f with
  | Live.NilFunc => NilListener
  | Live.Closure addr code => Func code (outer addr)
  end.

Definition to_call (c : @Live.Call Value) : @Call Value World :=
  (to_listener c.1, c.2).

Definition to_outcome (o : @Outcome (@Live.machine World)) : @Outcome World :=
  match o with
  | Returned m => Returned (Live.world m)
  | Panicked m => Panicked (Live.world m)
  end.

Definition abstract (m : @Live.machine World) : @emitter Value World :=
  mkEmitter (Live.maxListeners m)
    ((λ s, to_listener <$> Live.elems (Live.heap m) s)
       <$> Live.evtListeners m).

End Abstraction.

(** * Properties *)

Section Properties.
Context {Value World : Type}.
Implicit Types (e : @emitter Value World) (l x L : @Listener Value World).
Implicit Types (ls before after : list (@Listener Value World)).
Implicit Types (m : gmap EventName (list (@Listener Value World))).
Implicit Types (evt name : EventName) (data : list Value) (w : World).

(** *** The map operations *)

Lemma emitter_eta e : mkEmitter (maxListeners e) (evtListeners e) = e.
Proof. by destruct e. Qed.

Lemma Range_names m :
  Map_Range (λ key (_ : list (@Listener Value World)) names, names ++ [key])
    [] m = reverse (map_to_list m).*1.
Proof.
  unfold Map_Range. rewrite map_fold_foldr.
  induction (map_to_list m) as [|[k v] kvs IH]; simpl; [done|].
  by rewrite IH, reverse_cons.
Qed.

Lemma Range_count m :
  Map_Range (λ _ (_ : list (@Listener Value World)) n, n + 1) 0 m
  = Z.of_nat (size m).
Proof.
  unfold Map_Range. rewrite map_fold_foldr, <- length_map_to_list.
  induction (map_to_list m) as [|[k v] kvs IH]; simpl; [done|].
  rewrite IH. lia.
Qed.

Lemma elem_of_EventNames e evt :
  evt ∈ EventNames e ↔ is_Some (evtListeners e !! evt).
Proof.
  unfold EventNames. rewrite Range_names, elem_of_reverse, list_elem_of_fmap.
  split.
  - intros [[k v] [-> Hkv]]. apply elem_of_map_to_list in Hkv. by exists v.
  - intros [v Hv]. exists (evt, v). split; [done|].
    by apply elem_of_map_to_list.
Qed.

Lemma Len_size e : Len e = Z.of_nat (size (evtListeners e)).
Proof. apply Range_count. Qed.

Lemma ListenerCount_length evt e :
  ListenerCount evt e = Z.of_nat (length (Listeners evt e)).
Proof.
  unfold ListenerCount, Listeners. by destruct (Map_Load evt (evtListeners e)).
Qed.

(** *** AddListener *)

Lemma AddListener_accepted evt ls e :
  ¬ (0 < maxListeners e ∧ maxListeners e ≤ ListenerCount evt e) →
  AddListener evt ls e
  = mkEmitter (maxListeners e)
      (<[evt := Listeners evt e ++ ls]> (evtListeners e)).
Proof.
  intros Hroom. revert Hroom.
  unfold AddListener, Map_LoadOrStore, ListenerCount, Listeners, Map_Load,
    Map_Store.
  destruct (evtListeners e !! evt) as [cur|] eqn:Hcur; intros Hroom.
  - destruct (Z.ltb_spec 0 (maxListeners e));
      destruct (Z.leb_spec (maxListeners e) (Z.of_nat (length cur)));
      simpl; try done.
    exfalso. apply Hroom. lia.
  - destruct (Z.ltb_spec 0 (maxListeners e));
      destruct (Z.leb_spec (maxListeners e) (Z.of_nat (length (@nil (@Listener Value World)))));
      simpl in *; try (by rewrite insert_insert_eq).
    lia.
Qed.

Lemma AddListener_full evt ls e :
  0 < maxListeners e → maxListeners e ≤ ListenerCount evt e →
  AddListener evt ls e = e.
Proof.
  unfold AddListener, Map_LoadOrStore, ListenerCount, Map_Load.
  destruct (evtListeners e !! evt) as [cur|] eqn:Hcur; intros Hpos Hfull.
  - destruct (Z.ltb_spec 0 (maxListeners e)); [|lia].
    destruct (Z.leb_spec (maxListeners e) (Z.of_nat (length cur))); [|lia].
    simpl. apply emitter_eta.
  - lia.
Qed.

Lemma AddListener_maxListeners evt ls e :
  maxListeners (AddListener evt ls e) = maxListeners e.
Proof.
  unfold AddListener, Map_LoadOrStore.
  destruct (evtListeners e !! evt);
    by destruct (_ && _).
Qed.

Lemma Listeners_insert evt name ls mx m :
  Listeners name (mkEmitter mx (<[evt := ls]> m))
  = if bool_decide (evt = name) then ls else Listeners name (mkEmitter mx m).
Proof.
  unfold Listeners, Map_Load. simpl. case_bool_decide as Heq.
  - subst. by rewrite lookup_insert_eq.
  - by rewrite lookup_insert_ne.
Qed.

Lemma Listeners_AddListener_accepted evt name ls e :
  ¬ (0 < maxListeners e ∧ maxListeners e ≤ ListenerCount evt e) →
  Listeners name (AddListener evt ls e)
  = if bool_decide (evt = name) then Listeners name e ++ ls
    else Listeners name e.
Proof.
  intros Hroom. rewrite AddListener_accepted by done.
  rewrite Listeners_insert. case_bool_decide; [by subst|].
  by rewrite emitter_eta.
Qed.

Lemma register_all_maxListeners (regs : list (@Registration Value World)) :
  ∀ e, maxListeners (register_all regs e) = maxListeners e.
Proof.
  unfold register_all.
  induction regs as [|r regs IH]; intros e; simpl; [done|].
  rewrite IH. apply AddListener_maxListeners.
Qed.

Lemma register_all_unlimited (regs : list (@Registration Value World)) :
  ∀ e name,
  maxListeners e ≤ 0 →
  Listeners name (register_all regs e) = Listeners name e ++ added name regs.
Proof.
  induction regs as [|[evt ls] regs IH]; intros e name Hmax; simpl.
  - by rewrite app_nil_r.
  - unfold register_all in *. simpl. unfold register at 2. simpl.
    rewrite IH by (rewrite AddListener_maxListeners; lia).
    rewrite Listeners_AddListener_accepted by lia.
    case_bool_decide; [by rewrite app_assoc | done].
Qed.

Lemma total_added_length name (regs : list (@Registration Value World)) :
  total_added name regs = Z.of_nat (length (added name regs)).
Proof.
  induction regs as [|[evt ls] regs IH]; simpl; [done|].
  case_bool_decide; [|done]. rewrite length_app, IH. lia.
Qed.

(** *** Emit *)

Lemma Emit_emitter_after name data e w :
  emitter_after (Emit name data e w) = e.
Proof.
  unfold Emit. destruct (Map_Load name (evtListeners e)); [|done].
  by destruct (range_call _ _ _).
Qed.

Lemma Emit_calls name data e w :
  calls (Emit name data e w) = (range_call (Listeners name e) data w).1.
Proof.
  unfold Emit, Listeners. destruct (Map_Load name (evtListeners e)); [|done].
  by destruct (range_call _ _ _).
Qed.

Lemma Emit_outcome name data e w :
  outcome (Emit name data e w) = (range_call (Listeners name e) data w).2.
Proof.
  unfold Emit, Listeners. destruct (Map_Load name (evtListeners e)); [|done].
  by destruct (range_call _ _ _).
Qed.

Lemma range_call_prefix ls : ∀ data w,
  (range_call ls data w).1 `prefix_of` each_once ls data.
Proof.
  induction ls as [|l ls IH]; intros data w; simpl; [done|].
  destruct (invoke l data w) as [w'|w'].
  - specialize (IH data w'). destruct (range_call ls data w') as [cs o].
    simpl in *. by apply prefix_cons.
  - simpl. apply prefix_cons, prefix_nil.
Qed.

Lemma range_call_returned ls : ∀ data w w',
  (range_call ls data w).2 = Returned w' →
  (range_call ls data w).1 = each_once ls data.
Proof.
  induction ls as [|l ls IH]; intros data w w'; simpl; [done|].
  destruct (invoke l data w) as [w1|w1]; [|done].
  specialize (IH data w1 w'). destruct (range_call ls data w1) as [cs o].
  simpl in *. intros Ho. by rewrite IH.
Qed.

Lemma range_call_panicked ls : ∀ data w w',
  (range_call ls data w).2 = Panicked w' →
  ∃ before l after,
    ls = before ++ l :: after ∧
    (range_call ls data w).1 = each_once (before ++ [l]) data ∧
    ∃ w0, invoke l data w0 = Panicked w'.
Proof.
  induction ls as [|l ls IH]; intros data w w'; simpl; [done|].
  destruct (invoke l data w) as [w1|w1] eqn:Hl.
  - specialize (IH data w1 w'). destruct (range_call ls data w1) as [cs o].
    simpl in *. intros Ho.
    destruct (IH Ho) as (before & l' & after & -> & -> & Hpanic).
    by exists (l :: before), l', after.
  - simpl. intros [= ->]. exists [], l, ls. eauto.
Qed.

Lemma range_call_all_return ls : ∀ data w,
  Forall (returns_on data) ls →
  ∃ w', (range_call ls data w).2 = Returned w'.
Proof.
  induction ls as [|l ls IH]; intros data w Hall; simpl; [by eexists|].
  apply Forall_cons in Hall as [Hl Hls].
  destruct (Hl w) as [w1 ->].
  destruct (IH data w1 Hls) as [w' Hw'].
  destruct (range_call ls data w1) as [cs o]. simpl in *. eauto.
Qed.

(** *** The capacity guard, negative capacities, removal of a name, Clear *)

(** C3: when MaxListeners is positive and the listener count of [name] has
    reached it, [AddListener(name, listeners...)] leaves the emitter exactly
    as it was: nothing is added for [name], no other entry changes, and the
    call has no result that could carry an error. *)
Theorem AddListener_at_capacity_noop name ls e :
  0 < GetMaxListeners e → GetMaxListeners e ≤ ListenerCount name e →
  AddListener name ls e = e ∧
  evtListeners (AddListener name ls e) = evtListeners e ∧
  Listeners name (AddListener name ls e) = Listeners name e.
Proof.
  unfold GetMaxListeners. intros Hpos Hfull.
  by rewrite AddListener_full.
Qed.

(** C5: for every n < 0, [SetMaxListeners(n)] changes nothing:
    [GetMaxListeners()] answers as before and the registry is the same. *)
Theorem SetMaxListeners_negative_noop n e :
  n < 0 →
  SetMaxListeners n e = e ∧
  GetMaxListeners (SetMaxListeners n e) = GetMaxListeners e ∧
  evtListeners (SetMaxListeners n e) = evtListeners e.
Proof.
  intros Hn. unfold SetMaxListeners.
  by destruct (Z.ltb_spec n 0); [|lia].
Qed.

(** C6: [RemoveAllListeners(name)] deletes the entry of [name] and answers
    [true], whether or not the entry existed; afterwards [EventNames()]
    does not list [name], [ListenerCount(name)] is 0, and the listeners of
    every other name are the same as before. *)
Theorem RemoveAllListeners_deletes name e :
  (RemoveAllListeners name e).1 = true ∧
  evtListeners (RemoveAllListeners name e).2 = delete name (evtListeners e) ∧
  (name ∉ EventNames (RemoveAllListeners name e).2) ∧
  ListenerCount name (RemoveAllListeners name e).2 = 0 ∧
  (∀ other, other ≠ name →
     evtListeners (RemoveAllListeners name e).2 !! other
     = evtListeners e !! other) ∧
  (∀ other, other ≠ name →
     Listeners other (RemoveAllListeners name e).2 = Listeners other e) ∧
  GetMaxListeners (RemoveAllListeners name e).2 = GetMaxListeners e.
Proof.
  unfold RemoveAllListeners, Map_Delete, Map_Load. simpl.
  repeat split.
  - rewrite lookup_delete_eq. rewrite bool_decide_eq_false_2; [done|].
    by intros [? ?].
  - rewrite elem_of_EventNames. simpl. rewrite lookup_delete_eq.
    by intros [? ?].
  - unfold ListenerCount, Map_Load. simpl. by rewrite lookup_delete_eq.
  - intros other Hne. by rewrite lookup_delete_ne.
  - intros other Hne. unfold Listeners, Map_Load. simpl.
    by rewrite lookup_delete_ne.
Qed.

(** C9: right after [Clear()] the registry is empty: [Len()] is 0,
    [EventNames()] is empty and [ListenerCount(name)] is 0 for every name. *)
Theorem Clear_empties e :
  Len (Clear e) = 0 ∧
  EventNames (Clear e) = [] ∧
  (∀ name, ListenerCount name (Clear e) = 0) ∧
  evtListeners (Clear e) = ∅.
Proof.
  unfold Len, EventNames, ListenerCount, Clear, Map_Range, Map_Load. simpl.
  rewrite !map_fold_empty. by repeat split.
Qed.

(** C10: [AddListener(name)] without listeners, on an emitter that has no
    entry for [name], creates an empty entry: afterwards
    [ListenerCount(name)] is 0, [EventNames()] lists [name], which it did
    not before, and [Len()] is one greater. *)
Theorem AddListener_nothing_creates_entry name e :
  evtListeners e !! name = None →
  evtListeners (AddListener name [] e) !! name = Some [] ∧
  ListenerCount name (AddListener name [] e) = 0 ∧
  name ∈ EventNames (AddListener name [] e) ∧
  (name ∉ EventNames e) ∧
  Len (AddListener name [] e) = Len e + 1.
Proof.
  intros Hnone.
  assert (Hroom : ¬ (0 < maxListeners e ∧ maxListeners e ≤ ListenerCount name e)).
  { unfold ListenerCount, Map_Load. rewrite Hnone. lia. }
  rewrite AddListener_accepted by done.
  unfold Listeners, Map_Load. rewrite Hnone. simpl.
  repeat split.
  - by rewrite lookup_insert_eq.
  - unfold ListenerCount, Map_Load. simpl. by rewrite lookup_insert_eq.
  - rewrite elem_of_EventNames. simpl. by rewrite lookup_insert_eq.
  - rewrite elem_of_EventNames, Hnone. by intros [? ?].
  - rewrite !Len_size. simpl. rewrite map_size_insert_None by done. lia.
Qed.

(** *** RemoveListener *)

Lemma first_match_split p before : ∀ x after i0,
  Pointer x = p → Forall (λ y, Pointer y ≠ p) before →
  first_match p (before ++ x :: after) i0 = Some (i0 + length before)%nat.
Proof.
  induction before as [|y before IH]; intros x after i0 Hx Hbefore; simpl.
  - apply N.eqb_eq in Hx as ->. f_equal. lia.
  - apply Forall_cons in Hbefore as [Hy Hbefore].
    apply N.eqb_neq in Hy as ->.
    rewrite IH by done. f_equal. lia.
Qed.

Lemma first_match_none p ls : ∀ i0,
  Forall (λ y, Pointer y ≠ p) ls → first_match p ls i0 = None.
Proof.
  induction ls as [|y ls IH]; intros i0 Hls; simpl; [done|].
  apply Forall_cons in Hls as [Hy Hls].
  apply N.eqb_neq in Hy as ->. by apply IH.
Qed.

Lemma first_match_found p ls : ∀ i0,
  Exists (λ y, Pointer y = p) ls → is_Some (first_match p ls i0).
Proof.
  induction ls as [|y ls IH]; intros i0 Hex; simpl.
  - by apply Exists_nil in Hex.
  - destruct (N.eqb_spec (Pointer y) p) as [|Hne]; [done|].
    apply Exists_cons in Hex as [Hy|Hls]; [done|]. by apply IH.
Qed.

Lemma remove_at_middle before x after :
  take (length before) (before ++ x :: after)
    ++ drop (S (length before)) (before ++ x :: after)
  = before ++ after.
Proof. induction before as [|y before IH]; simpl; [done|]. by rewrite IH. Qed.

Lemma RemoveListener_at name L e before x after :
  evtListeners e !! name = Some (before ++ x :: after) →
  same_listener x L → Forall (λ y, ¬ same_listener y L) before →
  RemoveListener name L e
  = (true, mkEmitter (maxListeners e)
             (<[name := before ++ after]> (evtListeners e))).
Proof.
  intros Hentry Hx Hbefore. unfold RemoveListener, Map_Load, Map_Store.
  rewrite Hentry, (first_match_split _ before x after) by done.
  simpl. by rewrite remove_at_middle.
Qed.

Lemma RemoveListener_absent name L e :
  Forall (λ y, ¬ same_listener y L) (Listeners name e) →
  RemoveListener name L e = (false, e).
Proof.
  unfold RemoveListener, Listeners, Map_Load.
  destruct (evtListeners e !! name) as [ls|]; [|done].
  intros Hnone. by rewrite first_match_none.
Qed.

(** X23: [RemoveListener(name, L)] answers [true] and removes the first
    listener of [name] whose pointer, as [reflect] reports it, is the
    pointer of L; the listeners
    before and after it, later copies of L among them, keep their order,
    so [ListenerCount(name)] goes down by exactly 1 and no other name
    changes.  When no listener of [name] has that pointer, or [name]
    has no entry, it answers [false] and the emitter is unchanged.  After a
    single [On(name, L)] on an emitter with an empty registry the first
    [RemoveListener(name, L)] answers [true] and the second [false]. *)
Theorem RemoveListener_first_match name L e :
  (∀ before x after,
     evtListeners e !! name = Some (before ++ x :: after) →
     same_listener x L → Forall (λ y, ¬ same_listener y L) before →
     (RemoveListener name L e).1 = true ∧
     Listeners name (RemoveListener name L e).2 = before ++ after ∧
     ListenerCount name (RemoveListener name L e).2
     = ListenerCount name e - 1 ∧
     GetMaxListeners (RemoveListener name L e).2 = GetMaxListeners e ∧
     ∀ other, other ≠ name →
       evtListeners (RemoveListener name L e).2 !! other
       = evtListeners e !! other) ∧
  (Exists (λ y, same_listener y L) (Listeners name e) →
     (RemoveListener name L e).1 = true) ∧
  (Forall (λ y, ¬ same_listener y L) (Listeners name e) →
     RemoveListener name L e = (false, e)) ∧
  (∀ mx,
     let e1 := On name [L] (mkEmitter mx ∅) in
     let e2 := (RemoveListener name L e1).2 in
     (RemoveListener name L e1).1 = true ∧
     Listeners name e2 = [] ∧
     RemoveListener name L e2 = (false, e2)).
Proof.
  split; [|split; [|split]].
  - intros before x after Hentry Hx Hbefore.
    rewrite (RemoveListener_at name L e before x after) by done. simpl.
    split; [done|]. split.
    { unfold Listeners, Map_Load. simpl. by rewrite lookup_insert_eq. }
    split.
    { unfold ListenerCount, Map_Load. simpl.
      rewrite lookup_insert_eq, Hentry, !length_app. simpl. lia. }
    split; [done|].
    intros other Hne. by rewrite lookup_insert_ne.
  - unfold RemoveListener, Listeners, Map_Load.
    destruct (evtListeners e !! name) as [ls|].
    + intros Hex.
      by destruct (first_match_found (Pointer L) ls 0 Hex) as [i ->].
    + intros Hex. by apply Exists_nil in Hex.
  - apply RemoveListener_absent.
  - intros mx e1 e2.
    assert (He1 : e1 = mkEmitter mx (<[name := [L]]> ∅)).
    { subst e1. unfold On. rewrite AddListener_accepted.
      - done.
      - unfold ListenerCount, Map_Load. simpl. rewrite lookup_empty. lia. }
    assert (Hrm : RemoveListener name L e1
                  = (true, mkEmitter mx (<[name := []]> (<[name := [L]]> ∅)))).
    { rewrite He1.
      by rewrite (RemoveListener_at name L _ [] L []);
        [| simpl; by rewrite lookup_insert_eq | | ]. }
    subst e2. rewrite Hrm. simpl. split; [done|]. split.
    + unfold Listeners, Map_Load. simpl. by rewrite lookup_insert_eq.
    + apply RemoveListener_absent. unfold Listeners, Map_Load. simpl.
      by rewrite lookup_insert_eq.
Qed.

(** *** Once *)

(** C8: [Once(name, listeners...)] changes the emitter exactly as
    [AddListener(name, listeners...)] does, and [Emit] removes nothing: a
    listener registered with [Once] is still registered after [Emit] has
    called it, and the next [Emit] calls it again. *)
Theorem Once_is_AddListener name ls e :
  Once name ls e = AddListener name ls e ∧
  (∀ data w,
     emitter_after (Emit name data (Once name ls e) w) = Once name ls e) ∧
  (∀ l data w,
     let first := Emit name data (Once name [l] New) w in
     calls first = [(l, data)] ∧
     Listeners name (emitter_after first) = [l] ∧
     ∀ data', calls (Emit name data' (emitter_after first)
                       (world_of (outcome first))) = [(l, data')]).
Proof.
  split; [done|]. split.
  - intros data w. apply Emit_emitter_after.
  - intros l data w first.
    assert (Hls : Listeners name (Once name [l] New) = [l]).
    { unfold Once. rewrite AddListener_accepted.
      - unfold Listeners, Map_Load. simpl.
        by rewrite lookup_insert_eq, lookup_empty.
      - unfold New, DefaultMaxListeners. simpl. lia. }
    assert (Hone : ∀ d w0, (range_call [l] d w0).1 = [(l, d)]).
    { intros d w0. simpl. by destruct (invoke l d w0). }
    subst first. rewrite Emit_emitter_after, Emit_calls, Hls.
    split; [apply Hone|]. split; [done|].
    intros data'. rewrite Emit_calls, Hls. apply Hone.
Qed.

(** *** Counting registrations *)

(** C7: on a fresh emitter, whose MaxListeners is 0, after any sequence of
    [AddListener] calls [ListenerCount(name)] is the total number of
    listeners passed for [name]: no registration is dropped. *)
Theorem ListenerCount_unlimited (regs : list (@Registration Value World)) name :
  GetMaxListeners (register_all regs New) = 0 ∧
  ListenerCount name (register_all regs New) = total_added name regs ∧
  Listeners name (register_all regs New) = added name regs.
Proof.
  assert (Hl : Listeners name (register_all regs New) = added name regs).
  { by rewrite register_all_unlimited. }
  split; [|split; [|done]].
  - unfold GetMaxListeners. by rewrite register_all_maxListeners.
  - by rewrite ListenerCount_length, Hl, total_added_length.
Qed.

(** *** Emit after registrations *)

Lemma Emit_absent name data e w :
  evtListeners e !! name = None →
  Emit name data e w = mkEmitted e [] (Returned w).
Proof. unfold Emit, Map_Load. by intros ->. Qed.

(** With listeners that act outside the emitter: after any sequence of
    registrations on a fresh
    emitter, [Emit(name, payload...)] leaves the emitter unchanged and
    calls the listeners registered for [name] in the order they were
    added, each with the same payload, up to the first one that panics.
    When no listener panics every one of them is called exactly once; when
    one panics, it is the last one called.  When [name] has no entry,
    [Emit] calls nothing and changes nothing.  The same holds in every
    state of the emitter for the listeners it holds for [name]. *)
Theorem Emit_calls_in_order (regs : list (@Registration Value World))
    name data w :
  let e := register_all regs New in
  let r := Emit name data e w in
  emitter_after r = e ∧
  calls r `prefix_of` each_once (added name regs) data ∧
  (∀ w', outcome r = Returned w' →
     calls r = each_once (added name regs) data) ∧
  (Forall (returns_on data) (added name regs) →
     calls r = each_once (added name regs) data ∧
     ∃ w', outcome r = Returned w') ∧
  (∀ w', outcome r = Panicked w' →
     ∃ before l after,
       added name regs = before ++ l :: after ∧
       calls r = each_once (before ++ [l]) data ∧
       ∃ w0, invoke l data w0 = Panicked w') ∧
  (∀ e', evtListeners e' !! name = None →
     Emit name data e' w = mkEmitted e' [] (Returned w)) ∧
  (∀ e', emitter_after (Emit name data e' w) = e' ∧
     calls (Emit name data e' w) `prefix_of` each_once (Listeners name e') data ∧
     (Forall (returns_on data) (Listeners name e') →
        calls (Emit name data e' w) = each_once (Listeners name e') data)).
Proof.
  intros e r. subst r.
  assert (Hls : Listeners name e = added name regs).
  { subst e. by rewrite register_all_unlimited. }
  rewrite Emit_emitter_after, Emit_calls, Emit_outcome, Hls.
  split; [done|]. split; [apply range_call_prefix|].
  split; [apply range_call_returned|]. split; [|split].
  - intros Hall.
    destruct (range_call_all_return _ data w Hall) as [w' Hw'].
    split; [by eapply range_call_returned | by exists w'].
  - apply range_call_panicked.
  - split; [intros e'; apply Emit_absent|].
    intros e'. rewrite Emit_emitter_after, Emit_calls.
    split; [done|]. split; [apply range_call_prefix|].
    intros Hall.
    destruct (range_call_all_return _ data w Hall) as [w' Hw'].
    by eapply range_call_returned.
Qed.

(** *** Capacity 2 and three listeners *)

Lemma Listeners_AddListener_nothing name e :
  Listeners name (AddListener name [] e) = Listeners name e.
Proof.
  destruct (decide (0 < maxListeners e ∧ maxListeners e ≤ ListenerCount name e))
    as [[Hpos Hfull]|Hroom].
  - by rewrite AddListener_full.
  - rewrite Listeners_AddListener_accepted by done.
    rewrite bool_decide_eq_true_2 by done. by rewrite app_nil_r.
Qed.

Lemma add_batches_maxListeners name (batches : list (list (@Listener Value World))) :
  ∀ e, maxListeners (add_batches name batches e) = maxListeners e.
Proof.
  unfold add_batches.
  induction batches as [|b batches IH]; intros e; simpl; [done|].
  by rewrite IH, AddListener_maxListeners.
Qed.

Lemma add_batches_app name (a b : list (list (@Listener Value World))) e :
  add_batches name (a ++ b) e = add_batches name b (add_batches name a e).
Proof. apply foldl_app. Qed.

Lemma add_batches_cons name before (batches : list (list (@Listener Value World))) e :
  add_batches name (before :: batches) e
  = add_batches name batches (AddListener name before e).
Proof. done. Qed.

(** As long as the total stays within the capacity nothing is dropped. *)
Lemma add_batches_within_capacity name (batches : list (list (@Listener Value World))) :
  ∀ e,
    Z.of_nat (length (Listeners name e ++ concat batches)) ≤ maxListeners e →
    Listeners name (add_batches name batches e)
    = Listeners name e ++ concat batches.
Proof.
  unfold add_batches.
  induction batches as [|b batches IH]; intros e Hfit; simpl in *.
  - by rewrite app_nil_r.
  - destruct b as [|l b].
    + simpl in *. rewrite IH; rewrite ?Listeners_AddListener_nothing,
        ?AddListener_maxListeners; done.
    + assert (Hroom : ¬ (0 < maxListeners e
                         ∧ maxListeners e ≤ ListenerCount name e)).
      { rewrite ListenerCount_length. rewrite !length_app in Hfit.
        simpl in Hfit. lia. }
      assert (Hadd : Listeners name (AddListener name (l :: b) e)
                     = Listeners name e ++ l :: b).
      { rewrite Listeners_AddListener_accepted by done.
        by rewrite bool_decide_eq_true_2. }
      rewrite IH; rewrite Hadd, ?AddListener_maxListeners;
        by rewrite <- app_assoc.
Qed.

Lemma add_batches_nothing name (batches : list (list (@Listener Value World))) :
  ∀ e, concat batches = [] →
    Listeners name (add_batches name batches e) = Listeners name e.
Proof.
  unfold add_batches.
  induction batches as [|b batches IH]; intros e Hnil; simpl in *; [done|].
  apply app_eq_nil in Hnil as [-> Hnil].
  by rewrite IH, Listeners_AddListener_nothing.
Qed.

(** The capacity is checked once per call: when the third listener shares
    its call with the second, the call starts below the capacity and all
    three are registered. *)
Lemma add_batches_shared_call name l1 l2 l3
    (pre post : list (list (@Listener Value World))) before :
  before ≠ [] → concat pre ++ before = [l1; l2] → concat post = [] →
  Listeners name
    (add_batches name (pre ++ (before ++ [l3]) :: post) (SetMaxListeners 2 New))
  = [l1; l2; l3].
Proof.
  intros Hne Hpre Hpost.
  set (e0 := SetMaxListeners 2 (@New Value World)).
  assert (Hlen : (length (concat pre) < 2)%nat).
  { apply (f_equal length) in Hpre. rewrite length_app in Hpre. simpl in Hpre.
    destruct before; [done|]. simpl in Hpre. lia. }
  assert (Hpre_ls : Listeners name (add_batches name pre e0) = concat pre).
  { assert (Hnew : Listeners name e0 = []) by done.
    rewrite add_batches_within_capacity; rewrite Hnew; simpl; [done|]. lia. }
  rewrite add_batches_app, add_batches_cons, add_batches_nothing by done.
  rewrite Listeners_AddListener_accepted.
  - rewrite bool_decide_eq_true_2 by done.
    by rewrite Hpre_ls, app_assoc, Hpre.
  - rewrite add_batches_maxListeners, ListenerCount_length, Hpre_ls. simpl. lia.
Qed.

(** With listeners that act outside the emitter: on a fresh emitter,
    after [SetMaxListeners(2)],
    adding 3 listeners to one name with the third passed in a later
    [AddListener] call than the first two leaves exactly the first 2
    registered.  A following [Emit] of that name calls no other listener
    than these 2, in order, and calls both when the first returns. *)
Theorem SetMaxListeners_two_of_three name l1 l2 l3
    (pre post : list (list (@Listener Value World))) data w :
  concat pre = [l1; l2] → concat post = [] →
  let e := add_batches name (pre ++ [l3] :: post) (SetMaxListeners 2 New) in
  Listeners name e = [l1; l2] ∧
  ListenerCount name e = 2 ∧
  calls (Emit name data e w) `prefix_of` [(l1, data); (l2, data)] ∧
  (∀ w1, invoke l1 data w = Returned w1 →
     calls (Emit name data e w) = [(l1, data); (l2, data)]).
Proof.
  intros Hpre Hpost e.
  set (e0 := SetMaxListeners 2 (@New Value World)).
  assert (Hpre_ls : Listeners name (add_batches name pre e0) = [l1; l2]).
  { rewrite add_batches_within_capacity; rewrite Hpre; done. }
  assert (Hfull : AddListener name [l3] (add_batches name pre e0)
                  = add_batches name pre e0).
  { apply AddListener_full; rewrite add_batches_maxListeners; [done|].
    by rewrite ListenerCount_length, Hpre_ls. }
  assert (Hls : Listeners name e = [l1; l2]).
  { subst e. fold e0.
    rewrite add_batches_app, add_batches_cons, Hfull.
    by rewrite add_batches_nothing. }
  split; [done|]. split; [by rewrite ListenerCount_length, Hls|].
  rewrite Emit_calls, Hls. split.
  - apply (range_call_prefix [l1; l2]).
  - intros w1 Hl1. simpl. rewrite Hl1.
    by destruct (invoke l2 data w1).
Qed.

End Properties.

(** * The properties at the sample listeners *)

Import Sample.

Ltac evaluate :=
vm_compute; first [reflexivity | discriminate | (intro; discriminate)].

Lemma AddListener_at_capacity_noop_witness :
let e := AddListener "a" [L1; L2] (SetMaxListeners 2 fresh) in
0 < GetMaxListeners e ∧ GetMaxListeners e ≤ ListenerCount "a" e ∧
AddListener "a" [L3] e = e.
Proof.
intros e.
assert (Hpos : 0 < GetMaxListeners e) by evaluate.
assert (Hfull : GetMaxListeners e ≤ ListenerCount "a" e) by evaluate.
split; [exact Hpos|]. split; [exact Hfull|].
exact (proj1 (AddListener_at_capacity_noop "a" [L3] e Hpos Hfull)).
Defined.

Lemma SetMaxListeners_negative_noop_witness :
let e := SetMaxListeners 5 fresh in
-1 < 0 ∧ GetMaxListeners (SetMaxListeners (-1) e) = 5.
Proof.
intros e.
assert (Hneg : -1 < 0) by evaluate.
split; [exact Hneg|].
rewrite (proj1 (proj2 (SetMaxListeners_negative_noop (-1) e Hneg))).
reflexivity.
Defined.

Lemma RemoveAllListeners_deletes_witness :
let e := On "y" [L2] (On "x" [L1] fresh) in
"y" ≠ "x" ∧
Listeners "y" (RemoveAllListeners "x" e).2 = [L2].
Proof.
intros e.
assert (Hne : "y" ≠ "x") by evaluate.
split; [exact Hne|].
destruct (RemoveAllListeners_deletes "x" e) as (_ & _ & _ & _ & _ & Hother & _).
rewrite (Hother "y" Hne). reflexivity.
Defined.

Lemma AddListener_nothing_creates_entry_witness :
let e := On "x" [L1] fresh in
evtListeners e !! "a" = None ∧
ListenerCount "a" (AddListener "a" [] e) = 0 ∧
"a" ∈ EventNames (AddListener "a" [] e) ∧
Len (AddListener "a" [] e) = 2.
Proof.
intros e.
assert (Hnone : evtListeners e !! "a" = None) by evaluate.
split; [exact Hnone|].
destruct (AddListener_nothing_creates_entry "a" e Hnone)
  as (_ & Hcount & Hin & _ & Hlen).
split; [exact Hcount|]. split; [exact Hin|].
rewrite Hlen. reflexivity.
Defined.

Lemma RemoveListener_first_match_witness :
let e := On "b" [L2; L1; L3; L1] fresh in
evtListeners e !! "b" = Some ([L2] ++ L1 :: [L3; L1]) ∧
same_listener L1 L1 ∧
Forall (λ y, ¬ same_listener y L1) [L2] ∧
(RemoveListener "b" L1 e).1 = true ∧
Listeners "b" (RemoveListener "b" L1 e).2 = [L2; L3; L1] ∧
ListenerCount "b" (RemoveListener "b" L1 e).2 = 3 ∧
Forall (λ y, ¬ same_listener y L1) (Listeners "c" e) ∧
RemoveListener "c" L1 e = (false, e).
Proof.
intros e.
assert (Hentry : evtListeners e !! "b" = Some ([L2] ++ L1 :: [L3; L1]))
  by evaluate.
assert (Hsame : same_listener L1 L1) by reflexivity.
assert (Hbefore : Forall (λ y, ¬ same_listener y L1) [L2]).
{ repeat constructor. evaluate. }
assert (Hnone : Forall (λ y, ¬ same_listener y L1) (Listeners "c" e)).
{ vm_compute. constructor. }
destruct (RemoveListener_first_match "b" L1 e) as (Hfirst & _).
destruct (Hfirst [L2] L1 [L3; L1] Hentry Hsame Hbefore)
  as (Htrue & Hls & Hcount & _).
destruct (RemoveListener_first_match "c" L1 e) as (_ & _ & Habsent & _).
split; [exact Hentry|]. split; [exact Hsame|]. split; [exact Hbefore|].
split; [exact Htrue|]. split; [exact Hls|].
split; [rewrite Hcount; reflexivity|].
split; [exact Hnone | exact (Habsent Hnone)].
Defined.

Lemma Emit_calls_in_order_witness :
let regs := [("a", [L1]); ("a", [L2])] in
Forall (returns_on ["x"; "y"]) (added "a" regs) ∧
calls (Emit "a" ["x"; "y"] (register_all regs fresh) [])
= [(L1, ["x"; "y"]); (L2, ["x"; "y"])].
Proof.
intros regs.
assert (Hall : Forall (returns_on ["x"; "y"]) (added "a" regs)).
{ repeat constructor; intros w; eexists; reflexivity. }
split; [exact Hall|].
destruct (Emit_calls_in_order regs "a" ["x"; "y"] [])
  as (_ & _ & _ & Hcalls & _).
exact (proj1 (Hcalls Hall)).
Defined.

(** The README registers [user_joined], which reads two payload values;
  when it is emitted without payload the listener panics and the listener
  registered after it is never called. *)
Lemma Emit_calls_in_order_counterexample :
let regs := [("user_joined", [user_joined]); ("user_joined", [L2])] in
calls (Emit "user_joined" [] (register_all regs fresh) [])
= [(user_joined, [])] ∧
¬ invokes_each_once regs "user_joined" [] [].
Proof.
intros regs. split; [reflexivity|].
unfold invokes_each_once. intros Hcalls.
apply (f_equal length) in Hcalls. vm_compute in Hcalls. discriminate.
Qed.

Lemma SetMaxListeners_two_of_three_witness :
concat [[L1]; [L2]] = [L1; L2] ∧
concat ([[]] : list (list listener)) = [] ∧
let e := add_batches "a" ([[L1]; [L2]] ++ [L3] :: [[]])
           (SetMaxListeners 2 fresh) in
ListenerCount "a" e = 2 ∧
invoke L1 ["x"] [] = Returned ["L1"] ∧
calls (Emit "a" ["x"] e []) = [(L1, ["x"]); (L2, ["x"])].
Proof.
assert (Hpre : concat [[L1]; [L2]] = [L1; L2]) by reflexivity.
assert (Hpost : concat ([[]] : list (list listener)) = []) by reflexivity.
assert (Hl1 : invoke L1 ["x"] [] = Returned ["L1"]) by reflexivity.
split; [exact Hpre|]. split; [exact Hpost|]. intros e.
destruct (SetMaxListeners_two_of_three "a" L1 L2 L3 _ _ ["x"] [] Hpre Hpost)
  as (_ & Hcount & _ & Hcalls).
split; [exact Hcount|]. split; [exact Hl1|].
exact (Hcalls _ Hl1).
Defined.

(** The capacity is checked once per call, before the listeners of the
  call are appended, so 3 listeners passed in one call to an empty name are
  all registered, and [Emit] calls all 3. *)
Lemma SetMaxListeners_two_of_three_counterexample :
let e := add_batches "a" [[L1; L2; L3]] (SetMaxListeners 2 fresh) in
concat [[L1; L2; L3]] = [L1; L2; L3] ∧
ListenerCount "a" e = 3 ∧
calls (Emit "a" ["x"] e []) = [(L1, ["x"]); (L2, ["x"]); (L3, ["x"])] ∧
¬ retains_two "a" [[L1; L2; L3]].
Proof.
intros e. split; [reflexivity|]. split; [reflexivity|].
split; [reflexivity|].
unfold retains_two. evaluate.
Qed.

(** * Further properties of the methods *)

Section Behaviour.
Context {Value World : Type}.
Implicit Types (e : @emitter Value World) (l x L : @Listener Value World).
Implicit Types (ls before after : list (@Listener Value World)).
Implicit Types (evt name other : EventName) (data : list Value) (w : World).

(** *** Registration *)

Lemma at_capacity_dec name e : Decision (at_capacity name e).
Proof. unfold at_capacity. apply _. Qed.

Lemma lookup_AddListener name other ls e :
  other ≠ name →
  evtListeners (AddListener name ls e) !! other = evtListeners e !! other.
Proof.
  intros Hne.
  destruct (at_capacity_dec name e) as [[Hpos Hfull]|Hroom].
  - by rewrite AddListener_full.
  - rewrite AddListener_accepted by done. simpl. by rewrite lookup_insert_ne.
Qed.

Lemma lookup_AddListener_is_Some name ls e :
  is_Some (evtListeners (AddListener name ls e) !! name).
Proof.
  destruct (at_capacity_dec name e) as [[Hpos Hfull]|Hroom].
  - rewrite AddListener_full by done.
    revert Hpos Hfull. unfold ListenerCount, Map_Load.
    destruct (evtListeners e !! name); [done|lia].
  - rewrite AddListener_accepted by done. simpl. by rewrite lookup_insert_eq.
Qed.

(** X1: [AddListener] keeps the listeners a name has, in their order, and
    either appends all the listeners of the call after them or, at
    capacity, none. *)
Theorem AddListener_appends_or_drops name ls e :
  Listeners name e `prefix_of` Listeners name (AddListener name ls e) ∧
  (at_capacity name e →
     Listeners name (AddListener name ls e) = Listeners name e) ∧
  (¬ at_capacity name e →
     Listeners name (AddListener name ls e) = Listeners name e ++ ls ∧
     ListenerCount name (AddListener name ls e)
     = ListenerCount name e + Z.of_nat (length ls)).
Proof.
  destruct (at_capacity_dec name e) as [Hcap|Hroom].
  - destruct Hcap as [Hpos Hfull]. rewrite AddListener_full by done.
    split; [done|]. split; [done|]. intros Hroom. destruct Hroom. by split.
  - rewrite !ListenerCount_length.
    rewrite Listeners_AddListener_accepted by done.
    rewrite bool_decide_eq_true_2 by done.
    split; [by apply prefix_app_r|]. split; [done|].
    intros _. split; [done|]. rewrite length_app. lia.
Qed.

(** X2: [AddListener] for one name changes neither the entry of any other name
    nor the capacity. *)
Theorem AddListener_other_names name other ls e :
  other ≠ name →
  evtListeners (AddListener name ls e) !! other = evtListeners e !! other ∧
  Listeners other (AddListener name ls e) = Listeners other e ∧
  ListenerCount other (AddListener name ls e) = ListenerCount other e ∧
  GetMaxListeners (AddListener name ls e) = GetMaxListeners e.
Proof.
  intros Hne. unfold Listeners, ListenerCount, Map_Load, GetMaxListeners.
  by rewrite lookup_AddListener, AddListener_maxListeners.
Qed.

(** X3: A name without an entry is never at capacity: whatever MaxListeners
    is, the first registration for a name keeps every listener passed, even
    more than MaxListeners, and adds one name to the registry. *)
Theorem AddListener_first_registration name ls e :
  evtListeners e !! name = None →
  Listeners name (AddListener name ls e) = ls ∧
  ListenerCount name (AddListener name ls e) = Z.of_nat (length ls) ∧
  Len (AddListener name ls e) = Len e + 1.
Proof.
  intros Hnone.
  assert (Hroom : ¬ (0 < maxListeners e ∧ maxListeners e ≤ ListenerCount name e)).
  { unfold ListenerCount, Map_Load. rewrite Hnone. lia. }
  assert (Hls : Listeners name (AddListener name ls e) = ls).
  { rewrite Listeners_AddListener_accepted by done.
    rewrite bool_decide_eq_true_2 by done.
    unfold Listeners, Map_Load. by rewrite Hnone. }
  split; [done|]. split; [by rewrite ListenerCount_length, Hls|].
  rewrite AddListener_accepted by done. rewrite !Len_size. simpl.
  rewrite map_size_insert_None by done. lia.
Qed.

(** X4: [AddListener(name)] without listeners on a name that has an entry
    changes nothing at all. *)
Theorem AddListener_nothing_existing name e :
  is_Some (evtListeners e !! name) → AddListener name [] e = e.
Proof.
  intros [cur Hcur].
  destruct (at_capacity_dec name e) as [[Hpos Hfull]|Hroom].
  - by apply AddListener_full.
  - rewrite AddListener_accepted by done.
    unfold Listeners, Map_Load. rewrite Hcur, app_nil_r.
    rewrite insert_id by done. apply emitter_eta.
Qed.

(** X5: [Len()] counts names, not listeners: a registration adds one exactly
    when the name had no entry, however many listeners it passes and
    whether or not they are dropped. *)
Theorem Len_AddListener name ls e :
  Len (AddListener name ls e)
  = Len e + (if bool_decide (is_Some (evtListeners e !! name)) then 0 else 1).
Proof.
  case_bool_decide as Hentry.
  - destruct Hentry as [cur Hcur].
    destruct (at_capacity_dec name e) as [[Hpos Hfull]|Hroom].
    + rewrite AddListener_full by done. lia.
    + rewrite AddListener_accepted by done. rewrite !Len_size. simpl.
      rewrite map_size_insert_Some by eauto. lia.
  - assert (Hnone : evtListeners e !! name = None).
    { by apply eq_None_not_Some. }
    assert (Hroom : ¬ (0 < maxListeners e ∧ maxListeners e ≤ ListenerCount name e)).
    { unfold ListenerCount, Map_Load. rewrite Hnone. lia. }
    rewrite AddListener_accepted by done. rewrite !Len_size. simpl.
    rewrite map_size_insert_None by done. lia.
Qed.

(** *** The capacity *)

(** X6: Lowering MaxListeners to or below the number of listeners a name has
    removes none of them; it only makes further registrations for that
    name no-ops. *)
Theorem SetMaxListeners_lower_keeps name n ls e :
  0 < n → n ≤ ListenerCount name e →
  GetMaxListeners (SetMaxListeners n e) = n ∧
  Listeners name (SetMaxListeners n e) = Listeners name e ∧
  AddListener name ls (SetMaxListeners n e) = SetMaxListeners n e.
Proof.
  intros Hpos Hfull.
  assert (Hset : SetMaxListeners n e = mkEmitter n (evtListeners e)).
  { unfold SetMaxListeners. destruct (Z.ltb_spec n 0); [lia|done]. }
  rewrite Hset. split; [done|]. split; [done|].
  by apply AddListener_full.
Qed.

(** X7: [SetMaxListeners(0)] lifts the limit: the next registration appends
    all its listeners, whatever the limit and the count were. *)
Theorem SetMaxListeners_zero_unlimited name ls e :
  GetMaxListeners (SetMaxListeners 0 e) = 0 ∧
  Listeners name (AddListener name ls (SetMaxListeners 0 e))
  = Listeners name e ++ ls.
Proof.
  split; [done|].
  rewrite Listeners_AddListener_accepted by (simpl; lia).
  by rewrite bool_decide_eq_true_2.
Qed.

(** *** Names *)

(** X8: [EventNames()] lists every name that has an entry exactly once, and
    [Len()] is the number of names it lists. *)
Theorem EventNames_Len e :
  NoDup (EventNames e) ∧
  Len e = Z.of_nat (length (EventNames e)) ∧
  (∀ name, name ∈ EventNames e ↔ is_Some (evtListeners e !! name)).
Proof.
  split; [|split].
  - unfold EventNames. rewrite Range_names.
    rewrite reverse_Permutation. apply NoDup_fst_map_to_list.
  - rewrite Len_size. unfold EventNames.
    by rewrite Range_names, length_reverse, length_fmap, length_map_to_list.
  - intros name. apply elem_of_EventNames.
Qed.

(** *** Removal of one listener *)

Lemma first_match_decompose p ls : ∀ i0 i,
  first_match p ls i0 = Some i →
  ∃ before x after,
    ls = before ++ x :: after ∧ Pointer x = p ∧
    Forall (λ y, Pointer y ≠ p) before.
Proof.
  induction ls as [|y ls IH]; intros i0 i; simpl; [done|].
  destruct (N.eqb_spec (Pointer y) p) as [Heq|Hne].
  - intros _. by exists [], y, ls.
  - intros Hfound.
    destruct (IH _ _ Hfound) as (before & x & after & -> & Hx & Hbefore).
    exists (y :: before), x, after. split; [done|]. split; [done|].
    by constructor.
Qed.

Lemma RemoveListener_cases name L e :
  (RemoveListener name L e = (false, e) ∧
   Forall (λ y, ¬ same_listener y L) (Listeners name e)) ∨
  (∃ before x after,
     evtListeners e !! name = Some (before ++ x :: after) ∧
     same_listener x L ∧ Forall (λ y, ¬ same_listener y L) before ∧
     RemoveListener name L e
     = (true, mkEmitter (maxListeners e)
                (<[name := before ++ after]> (evtListeners e)))).
Proof.
  destruct (evtListeners e !! name) as [cur|] eqn:Hcur.
  - destruct (first_match (Pointer L) cur 0) as [i|] eqn:Hfound.
    + right.
      destruct (first_match_decompose _ _ _ _ Hfound)
        as (before & x & after & -> & Hx & Hbefore).
      exists before, x, after. split; [done|]. split; [done|].
      split; [done|]. by apply (RemoveListener_at name L e before x after).
    + left. unfold RemoveListener, Listeners, Map_Load.
      rewrite Hcur, Hfound. split; [done|].
      clear Hcur. revert Hfound. generalize 0%nat.
      induction cur as [|y cur IH]; intros i0; simpl; [by constructor|].
      destruct (N.eqb_spec (Pointer y) (Pointer L)) as [|Hne]; [done|].
      intros Hfound. constructor; [done|]. by eapply IH.
  - left. unfold RemoveListener, Listeners, Map_Load. rewrite Hcur.
    split; [done|]. constructor.
Qed.

(** X9: [RemoveListener] never deletes a name: [Len()] and the names listed
    by [EventNames()] are the same before and after, the capacity and the
    other names too, and a name whose last listener is removed stays
    listed with a count of 0. *)
Theorem RemoveListener_keeps_names name L e :
  Len (RemoveListener name L e).2 = Len e ∧
  (∀ other, other ∈ EventNames (RemoveListener name L e).2
            ↔ other ∈ EventNames e) ∧
  GetMaxListeners (RemoveListener name L e).2 = GetMaxListeners e ∧
  (∀ other, other ≠ name →
     Listeners other (RemoveListener name L e).2 = Listeners other e) ∧
  (∀ x, evtListeners e !! name = Some [x] → same_listener x L →
     name ∈ EventNames (RemoveListener name L e).2 ∧
     ListenerCount name (RemoveListener name L e).2 = 0).
Proof.
  destruct (RemoveListener_cases name L e)
    as [[-> Hnone]|(before & y & after & Hentry & Hy & Hbefore & ->)]; simpl.
  - split; [done|]. split; [done|]. split; [done|]. split; [done|].
    intros x Hx Hsame. exfalso. revert Hnone.
    unfold Listeners, Map_Load. rewrite Hx. intros Hnone.
    by apply Forall_cons in Hnone as [Hnone _].
  - split; [|split; [|split; [|split]]].
    + rewrite !Len_size. simpl. by rewrite map_size_insert_Some by eauto.
    + intros other. rewrite !elem_of_EventNames. simpl.
      rewrite lookup_insert_is_Some.
      split; [intros [<-|[_ Hsome]]; eauto |].
      intros Hsome. destruct (decide (name = other)); [by left | by right].
    + done.
    + intros other Hne. unfold Listeners, Map_Load. simpl.
      by rewrite lookup_insert_ne.
    + intros x Hx Hsame. rewrite Hentry in Hx.
      assert (Hlen : length (before ++ y :: after) = 1%nat).
      { by injection Hx as ->. }
      rewrite length_app in Hlen. simpl in Hlen.
      destruct before, after; simpl in Hlen; try lia.
      rewrite elem_of_EventNames. unfold ListenerCount, Map_Load. simpl.
      rewrite lookup_insert_eq. eauto.
Qed.

(** X10: [RemoveListener(name, L)] leaves the listeners that do not match L
    exactly as they were, in order, and takes away at most one listener. *)
Theorem RemoveListener_others_kept name L e :
  filter (λ y, Pointer y ≠ Pointer L) (Listeners name (RemoveListener name L e).2)
  = filter (λ y, Pointer y ≠ Pointer L) (Listeners name e) ∧
  ListenerCount name (RemoveListener name L e).2
  = ListenerCount name e - (if (RemoveListener name L e).1 then 1 else 0).
Proof.
  destruct (RemoveListener_cases name L e)
    as [[-> Hnone]|(before & y & after & Hentry & Hy & Hbefore & ->)]; simpl.
  - split; [done|lia].
  - unfold ListenerCount, Listeners, Map_Load. simpl.
    rewrite lookup_insert_eq, Hentry. split.
    + rewrite !filter_app. f_equal. by rewrite filter_cons_False by (by intros ?).
    + rewrite !length_app. simpl. lia.
Qed.

(** X11: Registering one listener and removing it again gives back the
    listeners the name had, when none of them matches the listener and the
    name was not at capacity. *)
Theorem On_RemoveListener_roundtrip name L e :
  ¬ at_capacity name e →
  Forall (λ y, ¬ same_listener y L) (Listeners name e) →
  (RemoveListener name L (On name [L] e)).1 = true ∧
  Listeners name (RemoveListener name L (On name [L] e)).2 = Listeners name e ∧
  ∀ other, other ≠ name →
    evtListeners (RemoveListener name L (On name [L] e)).2 !! other
    = evtListeners e !! other.
Proof.
  intros Hroom Hnone. unfold On. rewrite AddListener_accepted by done.
  rewrite (RemoveListener_at name L _ (Listeners name e) L []);
    [| simpl; by rewrite lookup_insert_eq | done | done ].
  simpl. split; [done|]. split.
  - unfold Listeners at 1, Map_Load. simpl.
    by rewrite lookup_insert_eq, app_nil_r.
  - intros other Hne. by rewrite !lookup_insert_ne.
Qed.

(** X12: Removing a listener from a name that is at capacity makes room for
    one more: the next single registration is kept, as the last listener. *)
Theorem RemoveListener_frees_capacity name L l e :
  0 < GetMaxListeners e → ListenerCount name e = GetMaxListeners e →
  (RemoveListener name L e).1 = true →
  AddListener name [l] e = e ∧
  Listeners name (AddListener name [l] (RemoveListener name L e).2)
  = Listeners name (RemoveListener name L e).2 ++ [l] ∧
  ListenerCount name (AddListener name [l] (RemoveListener name L e).2)
  = GetMaxListeners e.
Proof.
  unfold GetMaxListeners. intros Hpos Hfull Hremoved.
  split; [apply AddListener_full; lia|].
  destruct (RemoveListener_cases name L e)
    as [[Heq Hnone]|(before & y & after & Hentry & Hy & Hbefore & Heq)];
    rewrite Heq in *; [done|]. simpl.
  assert (Hcount : ListenerCount name e
                   = Z.of_nat (length (before ++ after)) + 1).
  { unfold ListenerCount, Map_Load. rewrite Hentry, !length_app. simpl. lia. }
  assert (Hroom : ¬ (0 < maxListeners e ∧
            maxListeners e ≤ ListenerCount name
              (mkEmitter (maxListeners e)
                 (<[name := before ++ after]> (evtListeners e))))).
  { intros [_ Hle]. revert Hle. unfold ListenerCount at 1, Map_Load. simpl.
    rewrite lookup_insert_eq. lia. }
  rewrite ListenerCount_length.
  rewrite Listeners_AddListener_accepted by done.
  rewrite bool_decide_eq_true_2 by done. split; [done|].
  unfold Listeners, Map_Load. simpl.
  rewrite lookup_insert_eq, length_app. simpl. lia.
Qed.

(** *** Removal of a name, Clear *)

(** X13: [RemoveAllListeners(name)] takes one name off [Len()] exactly when
    the name had an entry; on a name without entry, and when called a
    second time, it changes nothing. *)
Theorem RemoveAllListeners_Len name e :
  Len (RemoveAllListeners name e).2
  = Len e - (if bool_decide (is_Some (evtListeners e !! name)) then 1 else 0) ∧
  (evtListeners e !! name = None → (RemoveAllListeners name e).2 = e) ∧
  RemoveAllListeners name (RemoveAllListeners name e).2
  = (true, (RemoveAllListeners name e).2).
Proof.
  unfold RemoveAllListeners, Map_Delete, Map_Load. simpl.
  rewrite lookup_delete_eq, delete_delete_eq.
  split; [|split].
  - rewrite !Len_size. simpl. case_bool_decide as Hentry.
    + rewrite map_size_delete_Some by done.
      assert (size (evtListeners e) ≠ 0%nat); [|lia].
      intros Hsize%map_size_empty_inv. rewrite Hsize in Hentry.
      rewrite lookup_empty in Hentry. by destruct Hentry.
    + rewrite map_size_delete_None; [lia|]. by apply eq_None_not_Some.
  - intros Hnone. rewrite delete_id by done. apply emitter_eta.
  - rewrite bool_decide_eq_false_2; [done|]. by intros [? ?].
Qed.

(** X14: After [RemoveAllListeners(name)] the name starts afresh: the next
    registration keeps every listener passed, whatever MaxListeners is and
    however many listeners the name had. *)
Theorem RemoveAllListeners_then_AddListener name ls e :
  Listeners name (AddListener name ls (RemoveAllListeners name e).2) = ls ∧
  GetMaxListeners (AddListener name ls (RemoveAllListeners name e).2)
  = GetMaxListeners e.
Proof.
  unfold GetMaxListeners. rewrite AddListener_maxListeners. split; [|done].
  assert (Hnone : evtListeners (RemoveAllListeners name e).2 !! name = None).
  { apply lookup_delete_eq. }
  rewrite Listeners_AddListener_accepted.
  - rewrite bool_decide_eq_true_2 by done.
    unfold Listeners, Map_Load. by rewrite Hnone.
  - unfold ListenerCount, Map_Load. rewrite Hnone. lia.
Qed.

(** X15: [Clear()] empties the registry but keeps MaxListeners; afterwards
    [Emit] of any name calls nothing and leaves the world alone, and the
    next registration for any name keeps every listener passed. *)
Theorem Clear_keeps_capacity name ls data w e :
  GetMaxListeners (Clear e) = GetMaxListeners e ∧
  Emit name data (Clear e) w = mkEmitted (Clear e) [] (Returned w) ∧
  Listeners name (AddListener name ls (Clear e)) = ls.
Proof.
  split; [done|]. split; [by apply Emit_absent|].
  rewrite Listeners_AddListener_accepted.
  - by rewrite bool_decide_eq_true_2.
  - unfold ListenerCount, Map_Load. simpl. rewrite lookup_empty. lia.
Qed.

(** *** Emit and the other methods *)

Lemma range_call_app ls1 : ∀ ls2 data w,
  range_call (ls1 ++ ls2) data w
  = match range_call ls1 data w with
    | (cs, Returned w1) =>
        let '(cs2, o) := range_call ls2 data w1 in (cs ++ cs2, o)
    | (cs, Panicked w1) => (cs, Panicked w1)
    end.
Proof.
  induction ls1 as [|l ls1 IH]; intros ls2 data w; simpl.
  - by destruct (range_call ls2 data w).
  - destruct (invoke l data w) as [w'|w']; [|done].
    rewrite IH. destruct (range_call ls1 data w') as [cs [w1|w1]]; [|done].
    by destruct (range_call ls2 data w1).
Qed.

Lemma same_emission_listeners name data w e1 e2 :
  Listeners name e1 = Listeners name e2 → same_emission name data w e1 e2.
Proof.
  intros Hls. unfold same_emission.
  by rewrite !Emit_calls, !Emit_outcome, Hls.
Qed.

(** X16: for listeners that do not call the emitter, [Emit] after a
    registration that was not dropped: the listeners the
    name had are called first, as before the registration; when they all
    return the new ones are called after them, in the world they left, and
    when one of them panics none of the new ones is called. *)
Theorem Emit_after_AddListener name ls data w e :
  ¬ at_capacity name e →
  (∀ w1, outcome (Emit name data e w) = Returned w1 →
     calls (Emit name data (AddListener name ls e) w)
     = calls (Emit name data e w) ++ (range_call ls data w1).1 ∧
     outcome (Emit name data (AddListener name ls e) w)
     = (range_call ls data w1).2) ∧
  (∀ w1, outcome (Emit name data e w) = Panicked w1 →
     same_emission name data w (AddListener name ls e) e).
Proof.
  intros Hroom. unfold same_emission.
  rewrite !Emit_calls, !Emit_outcome.
  rewrite Listeners_AddListener_accepted by done.
  rewrite bool_decide_eq_true_2 by done. rewrite range_call_app.
  destruct (range_call (Listeners name e) data w) as [cs [w0|w0]]; simpl.
  - split; [|done]. intros w1 [= ->].
    by destruct (range_call ls data w1).
  - split; [done|]. by intros w1 _.
Qed.

(** X17: for listeners that do not call the emitter, what [Emit] does for
    one name does not depend on the other names or
    on the capacity: registering for, removing from or deleting another
    name, and [SetMaxListeners], leave it the same. *)
Theorem Emit_other_names name other ls L n data w e :
  other ≠ name →
  same_emission name data w (AddListener other ls e) e ∧
  same_emission name data w (RemoveListener other L e).2 e ∧
  same_emission name data w (RemoveAllListeners other e).2 e ∧
  same_emission name data w (SetMaxListeners n e) e.
Proof.
  intros Hne. split; [|split; [|split]]; apply same_emission_listeners;
    unfold Listeners, Map_Load.
  - by rewrite lookup_AddListener.
  - destruct (RemoveListener_cases other L e)
      as [[-> _]|(before & y & after & _ & _ & _ & ->)]; [done|].
    simpl. by rewrite lookup_insert_ne.
  - simpl. unfold Map_Delete. by rewrite lookup_delete_ne.
  - unfold SetMaxListeners. by destruct (n <? 0).
Qed.

(** X18: A nil listener can be registered like any other.  When the
    listeners before it return and do not call the emitter, [Emit] calls
    them and panics at the nil one; [RemoveListener] with nil removes it,
    after which [Emit] calls all the others, if they return and do not
    call the emitter. *)
Theorem nil_listener name data w e before after :
  evtListeners e !! name = Some (before ++ NilListener :: after) →
  Forall (returns_on data) before →
  (calls (Emit name data e w) = each_once (before ++ [NilListener]) data ∧
   ∃ w', outcome (Emit name data e w) = Panicked w') ∧
  (RemoveListener name NilListener e).1 = true ∧
  Listeners name (RemoveListener name NilListener e).2 = before ++ after ∧
  (Forall (returns_on data) after →
     calls (Emit name data (RemoveListener name NilListener e).2 w)
     = each_once (before ++ after) data).
Proof.
  intros Hentry Hbefore.
  assert (Hnot_nil : Forall (λ y, ¬ same_listener y NilListener) before).
  { eapply Forall_impl; [exact Hbefore|]. intros y Hy Hsame.
    destruct y as [|code body]; [|done].
    by destruct (Hy w) as [w' Hw']. }
  split.
  - rewrite Emit_calls, Emit_outcome. unfold Listeners, Map_Load.
    rewrite Hentry, range_call_app.
    destruct (range_call_all_return before data w Hbefore) as [w1 Hw1].
    pose proof (range_call_returned before data w w1 Hw1) as Hcs.
    destruct (range_call before data w) as [cs o]. simpl in *. subst.
    unfold each_once. rewrite map_app. eauto.
  - rewrite (RemoveListener_at name NilListener e before NilListener after)
      by done.
    simpl. split; [done|].
    assert (Hls : Listeners name
              (mkEmitter (maxListeners e)
                 (<[name := before ++ after]> (evtListeners e)))
            = before ++ after).
    { unfold Listeners, Map_Load. simpl. by rewrite lookup_insert_eq. }
    split; [done|]. intros Hafter. rewrite Emit_calls, Hls.
    destruct (range_call_all_return (before ++ after) data w) as [w1 Hw1].
    { by apply Forall_app. }
    by eapply range_call_returned.
Qed.

(** X19: The removal example of the README, for any listener: after
    [On(name, L)] on an empty registry [Emit] calls L; after
    [RemoveListener(name, L)] the name still has its entry, and [Emit]
    calls nothing and returns. *)
Theorem On_Emit_RemoveListener_Emit name L data w mx :
  let e1 := On name [L] (mkEmitter mx ∅) in
  let e2 := (RemoveListener name L e1).2 in
  calls (Emit name data e1 w) = [(L, data)] ∧
  (RemoveListener name L e1).1 = true ∧
  evtListeners e2 !! name = Some [] ∧
  ∀ w', Emit name data e2 w' = mkEmitted e2 [] (Returned w').
Proof.
  intros e1 e2.
  assert (He1 : e1 = mkEmitter mx (<[name := [L]]> ∅)).
  { subst e1. unfold On. rewrite AddListener_accepted; [done|].
    unfold ListenerCount, Map_Load. simpl. rewrite lookup_empty. lia. }
  assert (Hrm : RemoveListener name L e1
                = (true, mkEmitter mx (<[name := []]> (<[name := [L]]> ∅)))).
  { rewrite He1.
    by rewrite (RemoveListener_at name L _ [] L []);
      [| simpl; by rewrite lookup_insert_eq | | ]. }
  subst e2. rewrite Hrm. simpl. split.
  { rewrite Emit_calls, He1. unfold Listeners, Map_Load. simpl.
    rewrite lookup_insert_eq. simpl. by destruct (invoke L data w). }
  split; [done|]. split; [by rewrite lookup_insert_eq|].
  intros w'. unfold Emit, Map_Load. simpl. by rewrite lookup_insert_eq.
Qed.

(** *** Invariants of programs *)

Lemma step_maxListeners op e :
  keeps_capacity op → maxListeners (step e op) = maxListeners e.
Proof.
  destruct op as [evt ls|evt ls|evt ls|evt data w|evt|evt l| |n]; simpl;
    try done; intros _.
  - apply AddListener_maxListeners.
  - apply AddListener_maxListeners.
  - apply AddListener_maxListeners.
  - by rewrite Emit_emitter_after.
  - destruct (RemoveListener_cases evt l e)
      as [[-> _]|(before & y & after & _ & _ & _ & ->)]; done.
Qed.

Lemma ListenerCount_nonneg name e : 0 ≤ ListenerCount name e.
Proof. rewrite ListenerCount_length. lia. Qed.

Lemma ListenerCount_RemoveListener_le name evt L e :
  ListenerCount name (RemoveListener evt L e).2 ≤ ListenerCount name e.
Proof.
  destruct (RemoveListener_cases evt L e)
    as [[-> _]|(before & y & after & Hentry & _ & _ & ->)]; [done|].
  unfold ListenerCount, Map_Load. simpl.
  destruct (decide (evt = name)) as [->|Hne].
  - rewrite lookup_insert_eq, Hentry, !length_app. simpl. lia.
  - by rewrite lookup_insert_ne.
Qed.

Lemma ListenerCount_RemoveAllListeners_le name evt e :
  ListenerCount name (RemoveAllListeners evt e).2 ≤ ListenerCount name e.
Proof.
  unfold ListenerCount, Map_Load. simpl. unfold Map_Delete.
  destruct (decide (evt = name)) as [->|Hne].
  - rewrite lookup_delete_eq. destruct (evtListeners e !! name); lia.
  - by rewrite lookup_delete_ne.
Qed.

Lemma ListenerCount_AddListener_bound name evt ls e (k : nat) :
  0 < maxListeners e → (length ls ≤ k)%nat → (1 ≤ k)%nat →
  ListenerCount name e ≤ maxListeners e + Z.of_nat k - 1 →
  ListenerCount name (AddListener evt ls e) ≤ maxListeners e + Z.of_nat k - 1.
Proof.
  intros Hpos Hlen Hk Hbound.
  destruct (decide (evt = name)) as [->|Hne].
  - destruct (at_capacity_dec name e) as [[_ Hfull]|Hroom].
    + by rewrite AddListener_full.
    + rewrite ListenerCount_length.
      rewrite Listeners_AddListener_accepted by done.
      rewrite bool_decide_eq_true_2 by done.
      rewrite length_app. unfold at_capacity in Hroom.
      rewrite ListenerCount_length in Hroom. lia.
  - unfold ListenerCount, Map_Load. rewrite lookup_AddListener by done.
    apply Hbound.
Qed.

(** X20: MaxListeners is never negative: no sequence of calls makes it so. *)
Theorem run_maxListeners_nonneg (ops : list (@Op Value World)) e :
  0 ≤ GetMaxListeners e → 0 ≤ GetMaxListeners (run ops e).
Proof.
  unfold GetMaxListeners, run. revert e.
  induction ops as [|op ops IH]; intros e Hnonneg; simpl; [done|].
  apply IH.
  destruct op as [evt ls|evt ls|evt ls|evt data w|evt|evt l| |n];
    try (rewrite step_maxListeners by done; done).
  simpl. unfold SetMaxListeners.
  destruct (Z.ltb_spec n 0); simpl; lia.
Qed.

(** X21: With a positive MaxListeners that is not changed, a program whose
    registrations pass at most k listeners each (k ≥ 1) never brings the
    count of a name above MaxListeners + k - 1; with one listener per call
    the count never exceeds MaxListeners. *)
Theorem run_count_bounded (ops : list (@Op Value World)) (k : nat) e :
  (1 ≤ k)%nat → 0 < GetMaxListeners e →
  Forall keeps_capacity ops → Forall (passes_at_most k) ops →
  (∀ name, ListenerCount name e ≤ GetMaxListeners e + Z.of_nat k - 1) →
  ∀ name,
    ListenerCount name (run ops e) ≤ GetMaxListeners e + Z.of_nat k - 1.
Proof.
  unfold GetMaxListeners, run. intros Hk. revert e.
  induction ops as [|op ops IH]; intros e Hpos Hkeep Hpass Hbound name;
    simpl; [done|].
  apply Forall_cons in Hkeep as [Hop_keep Hkeep].
  apply Forall_cons in Hpass as [Hop_pass Hpass].
  rewrite <- (step_maxListeners op e) by done.
  apply IH; try done.
  - by rewrite step_maxListeners.
  - intros name'. rewrite step_maxListeners by done.
    destruct op as [evt ls|evt ls|evt ls|evt data w|evt|evt l| |n]; simpl.
    + by apply ListenerCount_AddListener_bound.
    + by apply ListenerCount_AddListener_bound.
    + by apply ListenerCount_AddListener_bound.
    + by rewrite Emit_emitter_after.
    + etrans; [apply ListenerCount_RemoveAllListeners_le|done].
    + etrans; [apply ListenerCount_RemoveListener_le|done].
    + unfold ListenerCount, Map_Load. simpl. rewrite lookup_empty. lia.
    + done.
Qed.

End Behaviour.

(** * Further properties at the sample listeners *)

Lemma range_call_recorders (tags : list (positive * string)) :
  ∀ (data : list string) (w : list string),
    range_call (map (λ ct, recorder ct.1 ct.2) tags) data w
    = (each_once (map (λ ct, recorder ct.1 ct.2) tags) data,
       Returned (w ++ tags.*2)).
Proof.
  induction tags as [|[code tag] tags IH]; intros data w; simpl.
  - by rewrite app_nil_r.
  - rewrite IH. simpl. by rewrite <- app_assoc.
Qed.

(** X22: Listeners that record their tag into a shared sequence: [Emit] calls
    them all and leaves the tags appended to the sequence in the order in
    which the listeners are registered. *)
Theorem recorders_record_in_order (tags : list (positive * string))
    (name : EventName) (data w : list string) (e : emitter) :
  Listeners name e = map (λ ct, recorder ct.1 ct.2) tags →
  outcome (Emit name data e w) = Returned (w ++ tags.*2) ∧
  calls (Emit name data e w) = each_once (Listeners name e) data.
Proof.
  intros Hls. by rewrite Emit_outcome, Emit_calls, Hls, range_call_recorders.
Qed.

Ltac refute_capacity :=
  unfold at_capacity; vm_compute; intros [Hpos Hfull];
  first [discriminate Hpos | apply Hfull; reflexivity].

Lemma AddListener_appends_or_drops_witness :
  ¬ at_capacity "a" fresh ∧
  Listeners "a" (AddListener "a" [L1; L2] fresh) = [L1; L2].
Proof.
  assert (Hroom : ¬ at_capacity "a" fresh) by refute_capacity.
  split; [exact Hroom|].
  destruct (AddListener_appends_or_drops "a" [L1; L2] fresh) as (_ & _ & Hadd).
  exact (proj1 (Hadd Hroom)).
Defined.

Lemma AddListener_other_names_witness :
  let e := On "b" [L2] fresh in
  "b" ≠ "a" ∧ Listeners "b" (AddListener "a" [L1] e) = [L2].
Proof.
  intros e.
  assert (Hne : "b" ≠ "a") by evaluate.
  split; [exact Hne|].
  destruct (AddListener_other_names "a" "b" [L1] e Hne) as (_ & Hls & _).
  rewrite Hls. reflexivity.
Defined.

Lemma AddListener_first_registration_witness :
  let e := SetMaxListeners 1 fresh in
  evtListeners e !! "a" = None ∧
  ListenerCount "a" (AddListener "a" [L1; L2; L3] e) = 3.
Proof.
  intros e.
  assert (Hnone : evtListeners e !! "a" = None) by evaluate.
  split; [exact Hnone|].
  exact (proj1 (proj2 (AddListener_first_registration "a" [L1; L2; L3] e Hnone))).
Defined.

Lemma AddListener_nothing_existing_witness :
  let e := On "a" [L1] fresh in
  is_Some (evtListeners e !! "a") ∧ AddListener "a" [] e = e.
Proof.
  intros e.
  assert (Hsome : is_Some (evtListeners e !! "a")).
  { exists [L1]. reflexivity. }
  split; [exact Hsome|].
  exact (AddListener_nothing_existing "a" e Hsome).
Defined.

Lemma SetMaxListeners_lower_keeps_witness :
  let e := On "a" [L1; L2; L3] fresh in
  0 < 2 ∧ 2 ≤ ListenerCount "a" e ∧
  Listeners "a" (SetMaxListeners 2 e) = [L1; L2; L3] ∧
  AddListener "a" [L1] (SetMaxListeners 2 e) = SetMaxListeners 2 e.
Proof.
  intros e.
  assert (Hpos : 0 < 2) by evaluate.
  assert (Hfull : 2 ≤ ListenerCount "a" e) by evaluate.
  split; [exact Hpos|]. split; [exact Hfull|].
  destruct (SetMaxListeners_lower_keeps "a" 2 [L1] e Hpos Hfull)
    as (_ & Hls & Hadd).
  split; [rewrite Hls; reflexivity | exact Hadd].
Defined.

Lemma RemoveListener_keeps_names_witness :
  let e := On "a" [L1] fresh in
  evtListeners e !! "a" = Some [L1] ∧ same_listener L1 L1 ∧
  "a" ∈ EventNames (RemoveListener "a" L1 e).2 ∧
  ListenerCount "a" (RemoveListener "a" L1 e).2 = 0.
Proof.
  intros e.
  assert (Hentry : evtListeners e !! "a" = Some [L1]) by evaluate.
  assert (Hsame : same_listener L1 L1) by reflexivity.
  split; [exact Hentry|]. split; [exact Hsame|].
  destruct (RemoveListener_keeps_names "a" L1 e) as (_ & _ & _ & _ & Hlast).
  exact (Hlast L1 Hentry Hsame).
Defined.

Lemma On_RemoveListener_roundtrip_witness :
  let e := On "a" [L1] fresh in
  ¬ at_capacity "a" e ∧
  Forall (λ y, ¬ same_listener y L2) (Listeners "a" e) ∧
  Listeners "a" (RemoveListener "a" L2 (On "a" [L2] e)).2 = [L1].
Proof.
  intros e.
  assert (Hroom : ¬ at_capacity "a" e) by refute_capacity.
  assert (Hnone : Forall (λ y, ¬ same_listener y L2) (Listeners "a" e)).
  { repeat constructor. evaluate. }
  split; [exact Hroom|]. split; [exact Hnone|].
  destruct (On_RemoveListener_roundtrip "a" L2 e Hroom Hnone) as (_ & Hls & _).
  rewrite Hls. reflexivity.
Defined.

Lemma RemoveListener_frees_capacity_witness :
  let e := On "a" [L1; L2] (SetMaxListeners 2 fresh) in
  0 < GetMaxListeners e ∧ ListenerCount "a" e = GetMaxListeners e ∧
  (RemoveListener "a" L1 e).1 = true ∧
  AddListener "a" [L3] e = e ∧
  Listeners "a" (AddListener "a" [L3] (RemoveListener "a" L1 e).2) = [L2; L3].
Proof.
  intros e.
  assert (Hpos : 0 < GetMaxListeners e) by evaluate.
  assert (Hfull : ListenerCount "a" e = GetMaxListeners e) by evaluate.
  assert (Hremoved : (RemoveListener "a" L1 e).1 = true) by reflexivity.
  split; [exact Hpos|]. split; [exact Hfull|]. split; [exact Hremoved|].
  destruct (RemoveListener_frees_capacity "a" L1 L3 e Hpos Hfull Hremoved)
    as (Hdropped & Hls & _).
  split; [exact Hdropped|]. rewrite Hls. reflexivity.
Defined.

Lemma RemoveAllListeners_Len_witness :
  evtListeners fresh !! "a" = None ∧ (RemoveAllListeners "a" fresh).2 = fresh.
Proof.
  assert (Hnone : evtListeners fresh !! "a" = None) by evaluate.
  split; [exact Hnone|].
  exact (proj1 (proj2 (RemoveAllListeners_Len "a" fresh)) Hnone).
Defined.

Lemma Emit_after_AddListener_witness :
  let e := On "a" [L1] fresh in
  ¬ at_capacity "a" e ∧
  outcome (Emit "a" [] e []) = Returned ["L1"] ∧
  calls (Emit "a" [] (AddListener "a" [L2] e) []) = [(L1, []); (L2, [])].
Proof.
  intros e.
  assert (Hroom : ¬ at_capacity "a" e) by refute_capacity.
  assert (Hold : outcome (Emit "a" [] e []) = Returned ["L1"]) by reflexivity.
  split; [exact Hroom|]. split; [exact Hold|].
  destruct (Emit_after_AddListener "a" [L2] [] [] e Hroom) as (Hreturned & _).
  rewrite (proj1 (Hreturned _ Hold)). reflexivity.
Defined.

Lemma Emit_other_names_witness :
  let e := On "a" [L1] fresh in
  "b" ≠ "a" ∧ same_emission "a" ["x"] [] (AddListener "b" [L2] e) e.
Proof.
  intros e.
  assert (Hne : "b" ≠ "a") by evaluate.
  split; [exact Hne|].
  exact (proj1 (Emit_other_names "a" "b" [L2] L3 7 ["x"] [] e Hne)).
Defined.

Lemma nil_listener_witness :
  let e := On "a" [L1; NilListener; L2] fresh in
  evtListeners e !! "a" = Some ([L1] ++ NilListener :: [L2]) ∧
  Forall (returns_on []) [L1] ∧
  calls (Emit "a" [] e []) = [(L1, []); (NilListener, [])] ∧
  Listeners "a" (RemoveListener "a" NilListener e).2 = [L1; L2].
Proof.
  intros e.
  assert (Hentry : evtListeners e !! "a" = Some ([L1] ++ NilListener :: [L2]))
    by evaluate.
  assert (Hbefore : Forall (returns_on ([] : list string)) [L1]).
  { repeat constructor. intros w. eexists. reflexivity. }
  split; [exact Hentry|]. split; [exact Hbefore|].
  destruct (nil_listener "a" [] [] e [L1] [L2] Hentry Hbefore)
    as ((Hcalls & _) & _ & Hls & _).
  split; [exact Hcalls | exact Hls].
Defined.

Lemma run_maxListeners_nonneg_witness :
  let ops := [OpSetMaxListeners 3; OpSetMaxListeners (-4); OpOn "a" [L1];
              OpClear] in
  0 ≤ GetMaxListeners fresh ∧ 0 ≤ GetMaxListeners (run ops fresh).
Proof.
  intros ops.
  assert (Hnonneg : 0 ≤ GetMaxListeners fresh) by evaluate.
  split; [exact Hnonneg|].
  exact (run_maxListeners_nonneg ops fresh Hnonneg).
Defined.

Lemma run_count_bounded_witness :
  let e := SetMaxListeners 2 fresh in
  let ops := [OpOn "a" [L1]; OpOn "a" [L2]; OpOn "a" [L3];
              OpRemoveListener "a" L1; OpOnce "a" [L3]] in
  (1 ≤ 1)%nat ∧ 0 < GetMaxListeners e ∧
  Forall keeps_capacity ops ∧ Forall (passes_at_most 1) ops ∧
  (∀ name, ListenerCount name e ≤ GetMaxListeners e + Z.of_nat 1 - 1) ∧
  ListenerCount "a" (run ops e) ≤ GetMaxListeners e + Z.of_nat 1 - 1.
Proof.
  intros e ops.
  assert (Hk : (1 ≤ 1)%nat) by lia.
  assert (Hpos : 0 < GetMaxListeners e) by evaluate.
  assert (Hkeep : Forall keeps_capacity ops).
  { repeat constructor. }
  assert (Hpass : Forall (passes_at_most 1) ops).
  { repeat constructor. }
  assert (Hbound : ∀ name,
            ListenerCount name e ≤ GetMaxListeners e + Z.of_nat 1 - 1).
  { intros name. evaluate. }
  split; [exact Hk|]. split; [exact Hpos|]. split; [exact Hkeep|].
  split; [exact Hpass|]. split; [exact Hbound|].
  exact (run_count_bounded ops 1 e Hk Hpos Hkeep Hpass Hbound "a").
Defined.

Lemma recorders_record_in_order_witness :
  let e := On "a" [L1; L2] fresh in
  let tags := [(1%positive, "L1"); (2%positive, "L2")] in
  Listeners "a" e = map (λ ct, recorder ct.1 ct.2) tags ∧
  outcome (Emit "a" ["x"] e []) = Returned ["L1"; "L2"].
Proof.
  intros e tags.
  assert (Hls : Listeners "a" e = map (λ ct, recorder ct.1 ct.2) tags)
    by reflexivity.
  split; [exact Hls|].
  exact (proj1 (recorders_record_in_order tags "a" ["x"] [] e Hls)).
Defined.

(** * The emitter in memory *)

Section Memory.
Context {Value World : Type}.
Variable grow : nat → nat → nat.
Implicit Types (m : @Live.machine World) (s : Live.slice).
Implicit Types (f : Live.FuncValue) (vs ls : list Live.FuncValue).
Implicit Types (h : gmap N (list Live.FuncValue)) (a : N).
Implicit Types (evt name : EventName) (data : list Value).

(** *** Writing into an array *)

Lemma list_inserts_middle {A} (l : list A) (n : nat) (k : list A) :
  (n + length k ≤ length l)%nat →
  list_inserts n k l = take n l ++ k ++ drop (n + length k) l.
Proof.
  intros Hfit.
  rewrite <- (take_drop n l) at 1.
  assert (Hn : length (take n l) = n) by (rewrite length_take; lia).
  rewrite <- Hn at 1. rewrite <- (Nat.add_0_r (length (take n l))).
  rewrite list_inserts_app_r. f_equal.
  rewrite <- (take_drop (length k) (drop n l)) at 1.
  rewrite list_inserts_0_r.
  - by rewrite drop_drop.
  - rewrite length_take, length_drop. lia.
Qed.

Lemma machine_eta m :
  Live.mkMachine (Live.maxListeners m) (Live.evtListeners m) (Live.heap m)
    (Live.next_array m) (Live.world m) = m.
Proof. by destruct m. Qed.

Lemma cells_Some h a l : h !! a = Some l → Live.cells h a = l.
Proof. unfold Live.cells. by intros ->. Qed.

Lemma cells_alter h a b (g : list Live.FuncValue → list Live.FuncValue) :
  Live.cells (alter g a h) b
  = if decide (a = b) then
      match h !! a with Some l => g l | None => [] end
    else Live.cells h b.
Proof.
  unfold Live.cells. rewrite lookup_alter. case_decide as Heq.
  - subst. by destruct (h !! b).
  - done.
Qed.

(** *** append *)

Lemma append_in_place s vs m :
  (Live.len s + length vs ≤ Live.cap s)%nat →
  Live.append grow s vs m
  = (Live.mkSlice (Live.array s) (Live.len s + length vs) (Live.cap s),
     Live.mkMachine (Live.maxListeners m) (Live.evtListeners m)
       (alter (list_inserts (Live.len s) vs) (Live.array s) (Live.heap m))
       (Live.next_array m) (Live.world m)).
Proof. intros Hfit. unfold Live.append. by rewrite decide_True. Qed.

Lemma append_registry s vs m :
  Live.evtListeners (Live.append grow s vs m).2 = Live.evtListeners m ∧
  Live.maxListeners (Live.append grow s vs m).2 = Live.maxListeners m ∧
  Live.world (Live.append grow s vs m).2 = Live.world m.
Proof. unfold Live.append. by case_decide. Qed.

Lemma append_len s vs m :
  Live.len (Live.append grow s vs m).1 = (Live.len s + length vs)%nat.
Proof. unfold Live.append. by case_decide. Qed.

(** The slice that [append] returns holds the elements of its first
    operand followed by the values. *)
Lemma append_elems s vs m :
  Live.slice_ok m s →
  Live.elems (Live.heap (Live.append grow s vs m).2)
    (Live.append grow s vs m).1
  = Live.elems (Live.heap m) s ++ vs.
Proof.
  intros [Hlen Harr]. unfold Live.append. case_decide as Hfit; simpl.
  - unfold Live.elems. simpl. destruct vs as [|v vs].
    + rewrite Nat.add_0_r, app_nil_r. rewrite cells_alter, decide_True by done.
      unfold Live.cells. by destruct (Live.heap m !! Live.array s).
    + simpl in Hfit.
      destruct Harr as [[l Hl] Hcap]; [lia|].
      rewrite (cells_Some _ _ _ Hl) in *.
      rewrite cells_alter, decide_True, Hl by done.
      rewrite list_inserts_middle by (simpl; lia).
      rewrite app_assoc, take_app_length'; [done|].
      rewrite length_app, length_take. simpl. lia.
  - unfold Live.elems at 1. simpl.
    rewrite (cells_Some _ _ _ (lookup_insert_eq _ _ _)).
    rewrite app_assoc, take_app_length'; [done|].
    rewrite length_app. unfold Live.elems. rewrite length_take.
    destruct (decide (Live.cap s = 0%nat)) as [Hzero|Hpos]; [lia|].
    destruct (Harr Hpos) as [_ Hcells]. lia.
Qed.

(** [append] leaves the cells of every array alone, except those it
    writes in the array of its first operand. *)
Lemma append_cells s vs m a :
  Live.heap_ok m → is_Some (Live.heap m !! a) →
  (a ≠ Live.array s ∨ vs = [] ∨ (Live.cap s < Live.len s + length vs)%nat) →
  Live.cells (Live.heap (Live.append grow s vs m).2) a
  = Live.cells (Live.heap m) a.
Proof.
  intros Hheap [l Hl] Hother. unfold Live.append. case_decide as Hfit; simpl.
  - rewrite cells_alter. case_decide as Heq; [|done].
    destruct Hother as [Hne|[->|Hgrow]]; [by subst| |lia]. subst a.
    rewrite Hl. simpl. by rewrite (cells_Some _ _ _ Hl).
  - unfold Live.cells. rewrite lookup_insert_ne; [done|].
    intros <-. by rewrite (Hheap (Live.next_array m)) in Hl by lia.
Qed.

Lemma append_heap_ok s vs m :
  Live.heap_ok m → Live.heap_ok (Live.append grow s vs m).2.
Proof.
  intros Hheap a. unfold Live.append. case_decide as Hfit; simpl; intros Ha.
  - rewrite lookup_alter. case_decide; [subst; by rewrite Hheap|by apply Hheap].
  - rewrite lookup_insert_ne by lia. apply Hheap. lia.
Qed.

Lemma append_arrays_kept s vs m :
  Live.heap_ok m → Live.arrays_kept m (Live.append grow s vs m).2.
Proof.
  intros Hheap a [l Hl]. unfold Live.append. case_decide as Hfit; simpl.
  - rewrite lookup_alter, cells_alter.
    case_decide as Heq.
    + subst a. rewrite Hl. simpl. split; [by eexists|].
      by rewrite length_inserts, (cells_Some _ _ _ Hl).
    + split; [by eexists|done].
  - assert (Hne : Live.next_array m ≠ a).
    { intros <-. by rewrite (Hheap (Live.next_array m)) in Hl by lia. }
    unfold Live.cells. rewrite lookup_insert_ne by done. split; [by eexists|done].
Qed.

(** *** AddListener *)

Lemma slice_ok_empty m : Live.slice_ok m Live.empty_slice.
Proof. split; simpl; [lia|done]. Qed.

Lemma slice_ok_set_evtListeners r m s :
  Live.slice_ok (Live.set_evtListeners r m) s ↔ Live.slice_ok m s.
Proof. done. Qed.

Lemma live_AddListener_full evt ls m :
  Live.at_capacity evt m → Live.AddListener grow evt ls m = m.
Proof.
  unfold Live.at_capacity, Live.AddListener, Map_LoadOrStore,
    Live.ListenerCount, Map_Load.
  destruct (Live.evtListeners m !! evt) as [cur|] eqn:Hcur; intros [Hpos Hfull].
  - destruct (Z.ltb_spec 0 (Live.maxListeners m)); [|lia].
    destruct (Z.leb_spec (Live.maxListeners m) (Z.of_nat (Live.len cur)));
      [|lia].
    simpl. apply machine_eta.
  - lia.
Qed.

(** The slice a name has, the empty one when it has no entry. *)
Lemma live_AddListener_accepted evt ls m :
  ¬ Live.at_capacity evt m →
  Live.AddListener grow evt ls m
  = Live.set_evtListeners
      (<[evt := (Live.append grow
                   (default Live.empty_slice (Live.evtListeners m !! evt))
                   ls m).1]> (Live.evtListeners m))
      (Live.append grow
         (default Live.empty_slice (Live.evtListeners m !! evt)) ls m).2.
Proof.
  unfold Live.at_capacity, Live.AddListener, Map_LoadOrStore,
    Live.ListenerCount, Map_Load, Map_Store.
  intros Hroom.
  destruct (Live.evtListeners m !! evt) as [cur|] eqn:Hcur; simpl.
  - destruct (Z.ltb_spec 0 (Live.maxListeners m));
      destruct (Z.leb_spec (Live.maxListeners m) (Z.of_nat (Live.len cur)));
      simpl; try (exfalso; apply Hroom; lia);
      unfold Live.append; case_decide; simpl;
      by rewrite ?machine_eta.
  - destruct (Z.ltb_spec 0 (Live.maxListeners m));
      destruct (Z.leb_spec (Live.maxListeners m) (Z.of_nat 0));
      simpl in *; try lia;
      unfold Live.append; case_decide; simpl;
      unfold Live.set_evtListeners; simpl; by rewrite insert_insert_eq.
Qed.

Lemma live_AddListener_fields evt ls m :
  Live.maxListeners (Live.AddListener grow evt ls m) = Live.maxListeners m ∧
  Live.world (Live.AddListener grow evt ls m) = Live.world m.
Proof.
  destruct (decide (Live.at_capacity evt m)) as [Hcap|Hroom].
  - by rewrite live_AddListener_full.
  - rewrite live_AddListener_accepted by done. simpl.
    by destruct (append_registry
                   (default Live.empty_slice (Live.evtListeners m !! evt)) ls m)
      as (_ & -> & ->).
Qed.

Lemma current_slice_ok evt m :
  Live.wf m →
  Live.slice_ok m (default Live.empty_slice (Live.evtListeners m !! evt)).
Proof.
  intros (_ & Hslices & _).
  destruct (Live.evtListeners m !! evt) as [cur|] eqn:Hcur; simpl.
  - by eapply Hslices.
  - apply slice_ok_empty.
Qed.

Lemma append_slice_ok s vs m :
  Live.heap_ok m → Live.slice_ok m s →
  Live.slice_ok (Live.append grow s vs m).2 (Live.append grow s vs m).1.
Proof.
  intros Hheap [Hlen Harr]. unfold Live.append.
  case_decide as Hfit; simpl; split; simpl; try lia.
  - intros Hcap. destruct (Harr Hcap) as [[l Hl] Hcells].
    rewrite lookup_alter, decide_True, Hl by done. simpl.
    split; [by eexists|].
    rewrite cells_alter, decide_True, Hl by done.
    by rewrite length_inserts, <- Hcells, (cells_Some _ _ _ Hl).
  - intros _. rewrite lookup_insert_eq. split; [by eexists|].
    rewrite (cells_Some _ _ _ (lookup_insert_eq _ _ _)).
    rewrite !length_app, length_replicate. unfold Live.elems.
    rewrite length_take.
    destruct (decide (Live.cap s = 0%nat)) as [Hzero|Hpos]; [lia|].
    destruct (Harr Hpos) as [_ Hcells]. lia.
Qed.

Lemma slice_ok_arrays_kept m1 m2 s :
  Live.arrays_kept m1 m2 → Live.slice_ok m1 s → Live.slice_ok m2 s.
Proof.
  intros Hkept [Hlen Harr]. split; [done|]. intros Hcap.
  destruct (Harr Hcap) as [Hsome Hcells].
  destruct (Hkept _ Hsome) as [Hsome2 Hcells2]. split; [done|congruence].
Qed.

(** The array that [append] returns is the array of its operand or a
    new one. *)
Lemma append_array s vs m :
  Live.array (Live.append grow s vs m).1 = Live.array s ∨
  (Live.array (Live.append grow s vs m).1 = Live.next_array m ∧
   (Live.cap s < Live.len s + length vs)%nat).
Proof. unfold Live.append. case_decide; simpl; [by left|right; split; [done|lia]]. Qed.

Lemma append_cap s vs m :
  Live.cap (Live.append grow s vs m).1 ≠ 0%nat →
  Live.array (Live.append grow s vs m).1 = Live.array s →
  Live.cap s ≠ 0%nat ∨ Live.array s = Live.next_array m.
Proof.
  unfold Live.append. case_decide; simpl; [by left|]. intros _ Heq. by right.
Qed.

Lemma live_AddListener_wf evt ls m :
  Live.wf m → Live.wf (Live.AddListener grow evt ls m).
Proof.
  intros Hwf.
  destruct (decide (Live.at_capacity evt m)) as [Hcap|Hroom].
  { by rewrite live_AddListener_full. }
  rewrite live_AddListener_accepted by done.
  pose proof (current_slice_ok evt m Hwf) as Hcur.
  destruct Hwf as (Hheap & Hslices & Hapart).
  set (cur := default Live.empty_slice (Live.evtListeners m !! evt)) in *.
  pose proof (append_heap_ok cur ls m Hheap) as Hheap'.
  pose proof (append_arrays_kept cur ls m Hheap) as Hkept.
  pose proof (append_slice_ok cur ls m Hheap Hcur) as Hnew.
  split; [done|]. split.
  - intros name s. simpl. rewrite lookup_insert.
    case_decide as Heq.
    + intros [= <-]. by apply slice_ok_set_evtListeners.
    + intros Hs. apply slice_ok_set_evtListeners.
      eapply slice_ok_arrays_kept; [exact Hkept|]. by eapply Hslices.
  - assert (Hfresh : ∀ name s,
              name ≠ evt → Live.evtListeners m !! name = Some s →
              Live.cap s ≠ 0%nat →
              Live.cap (Live.append grow cur ls m).1 ≠ 0%nat →
              Live.array s ≠ Live.array (Live.append grow cur ls m).1).
    { intros name s Hne Hs Hcap Hcap' Heq.
      destruct (Hslices _ _ Hs) as [_ Harr].
      destruct (Harr Hcap) as [[l Hl] _].
      destruct (append_array cur ls m) as [Hsame|[Hnext _]].
      - rewrite Hsame in Heq.
        destruct (append_cap cur ls m Hcap' Hsame) as [Hcur_cap|Hcur_next].
        + subst cur.
          destruct (Live.evtListeners m !! evt) as [c|] eqn:Hc; simpl in *;
            [|done].
          by eapply (Hapart name evt s c).
        + rewrite Heq, Hcur_next in Hl.
          by rewrite (Hheap (Live.next_array m)) in Hl by lia.
      - rewrite Heq, Hnext in Hl.
        by rewrite (Hheap (Live.next_array m)) in Hl by lia. }
    intros name1 name2 s1 s2 Hne. simpl. rewrite !lookup_insert.
    repeat case_decide; subst; try done;
      intros Hs1 Hs2 Hcap1 Hcap2 Heq; simplify_eq.
    + exact (Hfresh name2 s2 (not_eq_sym Hne) Hs2 Hcap2 Hcap1 (eq_sym Heq)).
    + exact (Hfresh name1 s1 Hne Hs1 Hcap1 Hcap2 Heq).
    + exact (Hapart name1 name2 s1 s2 Hne Hs1 Hs2 Hcap1 Hcap2 Heq).
Qed.

(** The listeners of every name after a registration that was not
    dropped. *)
Lemma live_Listeners_AddListener evt name ls m :
  Live.wf m → ¬ Live.at_capacity evt m →
  Live.Listeners name (Live.AddListener grow evt ls m)
  = if bool_decide (evt = name) then Live.Listeners name m ++ ls
    else Live.Listeners name m.
Proof.
  intros Hwf Hroom. rewrite live_AddListener_accepted by done.
  pose proof (current_slice_ok evt m Hwf) as Hcur.
  destruct Hwf as (Hheap & Hslices & Hapart).
  unfold Live.Listeners, Map_Load. simpl. rewrite lookup_insert.
  case_bool_decide as Heq.
  - subst name. rewrite decide_True by done. rewrite append_elems by done.
    by destruct (Live.evtListeners m !! evt).
  - rewrite decide_False by done.
    destruct (Live.evtListeners m !! name) as [s|] eqn:Hs; [|done].
    unfold Live.elems.
    destruct (decide (Live.cap s = 0%nat)) as [Hzero|Hpos].
    { destruct (Hslices _ _ Hs) as [Hlen _].
      replace (Live.len s) with 0%nat by lia. done. }
    destruct (Hslices _ _ Hs) as [_ Harr]. destruct (Harr Hpos) as [Hsome _].
    rewrite append_cells; [done|done|done|].
    destruct (Live.evtListeners m !! evt) as [c|] eqn:Hc; simpl.
    + destruct (decide (Live.cap c = 0%nat)) as [Hczero|Hcpos].
      * destruct (Hslices _ _ Hc) as [Hclen _].
        destruct ls; [by right; left|]. right; right. simpl. lia.
      * left. by eapply (Hapart name evt s c).
    + destruct ls; [by right; left|]. right; right. simpl. lia.
Qed.

(** *** States reached by registrations *)

Lemma wf_New (w : World) : Live.wf (Live.New w).
Proof.
  split; [|split].
  - intros a _. apply lookup_empty.
  - intros name s. simpl. by rewrite lookup_empty.
  - intros name1 name2 s1 s2 _. simpl. by rewrite lookup_empty.
Qed.

Lemma wf_SetMaxListeners n m : Live.wf m → Live.wf (Live.SetMaxListeners n m).
Proof. unfold Live.SetMaxListeners. by destruct (n <? 0). Qed.

Lemma live_register_all_wf (regs : list Live.Registration) :
  ∀ m, Live.wf m → Live.wf (Live.register_all grow regs m).
Proof.
  unfold Live.register_all.
  induction regs as [|r regs IH]; intros m Hwf; simpl; [done|].
  apply IH. by apply live_AddListener_wf.
Qed.

Lemma live_register_all_maxListeners (regs : list Live.Registration) :
  ∀ m, Live.maxListeners (Live.register_all grow regs m) = Live.maxListeners m.
Proof.
  unfold Live.register_all.
  induction regs as [|r regs IH]; intros m; simpl; [done|].
  rewrite IH. apply live_AddListener_fields.
Qed.


Lemma live_ListenerCount_length name m :
  Live.wf m →
  Live.ListenerCount name m = Z.of_nat (length (Live.Listeners name m)).
Proof.
  intros (_ & Hslices & _). unfold Live.ListenerCount, Live.Listeners, Map_Load.
  destruct (Live.evtListeners m !! name) as [s|] eqn:Hs; [|done].
  destruct (Hslices _ _ Hs) as [Hlen Harr].
  unfold Live.elems. rewrite length_take.
  destruct (decide (Live.cap s = 0%nat)) as [Hzero|Hpos]; [lia|].
  destruct (Harr Hpos) as [_ Hcells]. lia.
Qed.

Lemma live_Listeners_AddListener_nothing name m :
  Live.wf m →
  Live.Listeners name (Live.AddListener grow name [] m) = Live.Listeners name m.
Proof.
  intros Hwf.
  destruct (decide (Live.at_capacity name m)) as [Hcap|Hroom].
  - by rewrite live_AddListener_full.
  - rewrite live_Listeners_AddListener by done.
    rewrite bool_decide_eq_true_2 by done. by rewrite app_nil_r.
Qed.

Lemma live_add_batches_app name (b1 b2 : list (list Live.FuncValue)) m :
  Live.add_batches grow name (b1 ++ b2) m
  = Live.add_batches grow name b2 (Live.add_batches grow name b1 m).
Proof. apply foldl_app. Qed.

Lemma live_add_batches_fields name (batches : list (list Live.FuncValue)) :
  ∀ m, Live.wf m →
    Live.wf (Live.add_batches grow name batches m) ∧
    Live.maxListeners (Live.add_batches grow name batches m)
    = Live.maxListeners m.
Proof.
  unfold Live.add_batches.
  induction batches as [|b batches IH]; intros m Hwf; simpl; [done|].
  destruct (IH (Live.AddListener grow name b m)) as [Hwf' ->].
  { by apply live_AddListener_wf. }
  split; [done|]. apply live_AddListener_fields.
Qed.

Lemma live_add_batches_within_capacity name
    (batches : list (list Live.FuncValue)) :
  ∀ m,
    Live.wf m →
    Z.of_nat (length (Live.Listeners name m ++ concat batches))
    ≤ Live.maxListeners m →
    Live.Listeners name (Live.add_batches grow name batches m)
    = Live.Listeners name m ++ concat batches.
Proof.
  unfold Live.add_batches.
  induction batches as [|b batches IH]; intros m Hwf Hfit; simpl in *.
  - by rewrite app_nil_r.
  - pose proof (live_AddListener_wf name b m Hwf) as Hwf'.
    destruct (live_AddListener_fields name b m) as [Hmax _].
    destruct b as [|l b].
    + simpl in *. rewrite IH;
        rewrite ?live_Listeners_AddListener_nothing, ?Hmax; done.
    + assert (Hroom : ¬ Live.at_capacity name m).
      { unfold Live.at_capacity. rewrite live_ListenerCount_length by done.
        rewrite !length_app in Hfit. simpl in Hfit. lia. }
      assert (Hadd : Live.Listeners name (Live.AddListener grow name (l :: b) m)
                     = Live.Listeners name m ++ l :: b).
      { rewrite live_Listeners_AddListener by done.
        by rewrite bool_decide_eq_true_2. }
      rewrite IH; rewrite ?Hadd, ?Hmax; by rewrite <- ?app_assoc.
Qed.

Lemma live_add_batches_nothing name (batches : list (list Live.FuncValue)) :
  ∀ m, Live.wf m → concat batches = [] →
    Live.Listeners name (Live.add_batches grow name batches m)
    = Live.Listeners name m.
Proof.
  unfold Live.add_batches.
  induction batches as [|b batches IH]; intros m Hwf Hnil; simpl in *; [done|].
  apply app_eq_nil in Hnil as [-> Hnil].
  rewrite IH; [|by apply live_AddListener_wf|done].
  by apply live_Listeners_AddListener_nothing.
Qed.

(** *** Emit *)

Variable bodies :
  positive → list Value → @Live.machine World → @Outcome (@Live.machine World).

Lemma take_drop_cons {A} (c : list A) (i n : nat) (l : A) (ls : list A) :
  take (S n) (drop i c) = l :: ls →
  c !! i = Some l ∧ take n (drop (S i) c) = ls.
Proof.
  destruct (c !! i) as [x|] eqn:Hx.
  - rewrite (drop_S _ _ _ Hx). simpl. by intros [= -> ->].
  - rewrite drop_ge by (by apply lookup_ge_None). done.
Qed.

Lemma same_emitter_refl m : Live.same_emitter m m.
Proof. done. Qed.

Lemma same_emitter_trans m1 m2 m3 :
  Live.same_emitter m1 m2 → Live.same_emitter m2 m3 → Live.same_emitter m1 m3.
Proof.
  intros (? & ? & ? & ?) (? & ? & ? & ?). repeat split; congruence.
Qed.




(** When no listener writes outside the arrays it is given, the loop of
    [Emit] never reads beyond the array it started with. *)
Lemma range_array_reads_in_range n : ∀ i a data m,
  Live.memory_safe bodies → Live.heap_ok m →
  is_Some (Live.heap m !! a) →
  (i + n ≤ length (Live.cells (Live.heap m) a))%nat →
  Live.reads_in_range bodies n i a data m.
Proof.
  induction n as [|n IH]; intros i a data m Hsafe Hheap Hsome Hlen; simpl;
    [done|].
  split; [lia|].
  destruct (default Live.NilFunc (Live.cells (Live.heap m) a !! i))
    as [|addr code] eqn:Hread; simpl; [done|].
  pose proof (Hsafe addr data m Hheap) as [Hheap' Hkept].
  destruct (bodies addr data m) as [m1|m1]; simpl in *; [|done].
  destruct (Hkept a Hsome) as [Hsome1 Hlen1].
  apply IH; try done. lia.
Qed.


(** C2, as the code has it: on a fresh emitter, after
    [SetMaxListeners(2)], adding 3 listeners to one name with the third
    passed in a later [AddListener] call than the first two leaves exactly
    the first 2 registered.  A following [Emit] of that name calls
    exactly these 2, in order, when the first returns and leaves the
    emitter as it is; whatever the first listener does to the emitter,
    [Emit] makes exactly 2 calls when the first call returns. *)
Theorem two_of_three_retained name l1 l2 l3
    (pre post : list (list Live.FuncValue)) data (w : World) :
  concat pre = [l1; l2] → concat post = [] →
  let m := Live.add_batches grow name (pre ++ [l3] :: post)
             (Live.SetMaxListeners 2 (Live.New w)) in
  Live.Listeners name m = [l1; l2] ∧
  Live.ListenerCount name m = 2 ∧
  (Live.returned (Live.call bodies l1 data m) →
     ∃ l, (Live.Emit bodies name data m).1 = [(l1, data); (l, data)]) ∧
  (Live.returned (Live.call bodies l1 data m) → Live.quiet bodies data l1 →
     (Live.Emit bodies name data m).1 = [(l1, data); (l2, data)]).
Proof.
  intros Hpre Hpost m.
  set (m0 := Live.SetMaxListeners 2 (Live.New w)).
  assert (Hwf0 : Live.wf m0) by apply wf_SetMaxListeners, wf_New.
  destruct (live_add_batches_fields name pre m0 Hwf0) as [Hwf1 Hmax1].
  assert (Hpre_ls : Live.Listeners name (Live.add_batches grow name pre m0)
                    = [l1; l2]).
  { rewrite live_add_batches_within_capacity; rewrite ?Hpre; done. }
  assert (Hfull : Live.AddListener grow name [l3]
                    (Live.add_batches grow name pre m0)
                  = Live.add_batches grow name pre m0).
  { apply live_AddListener_full. unfold Live.at_capacity.
    rewrite Hmax1, live_ListenerCount_length, Hpre_ls by done. done. }
  assert (Hm : m = Live.add_batches grow name post
                     (Live.add_batches grow name pre m0)).
  { subst m. fold m0. rewrite live_add_batches_app. simpl.
    unfold Live.add_batches at 1. simpl.
    by rewrite Hfull. }
  assert (Hwf : Live.wf m).
  { rewrite Hm. by apply live_add_batches_fields. }
  assert (Hls : Live.Listeners name m = [l1; l2]).
  { rewrite Hm, live_add_batches_nothing by done. done. }
  pose proof (live_ListenerCount_length name m Hwf) as Hcount.
  rewrite Hls in Hcount.
  split; [done|]. split; [done|].
  revert Hls Hcount. unfold Live.Emit, Live.Listeners, Live.ListenerCount,
    Map_Load.
  destruct (Live.evtListeners m !! name) as [s|]; [|done].
  intros Hls Hcount.
  assert (Hlen : Live.len s = 2%nat) by (simpl in Hcount; lia).
  rewrite Hlen. unfold Live.elems in Hls. rewrite Hlen in Hls.
  assert (Hcells : take 2 (drop 0 (Live.cells (Live.heap m) (Live.array s)))
                   = [l1; l2]) by done.
  apply take_drop_cons in Hcells as [Hfirst Hcells].
  apply take_drop_cons in Hcells as [Hsecond _].
  simpl. rewrite Hfirst. simpl. split.
  - destruct (Live.call bodies l1 data m) as [m1|m1]; [|done]. intros _.
    exists (default Live.NilFunc
              (Live.cells (Live.heap m1) (Live.array s) !! 1%nat)).
    by destruct (Live.call bodies _ data m1).
  - intros Hret Hquiet. specialize (Hquiet m).
    destruct (Live.call bodies l1 data m) as [m1|m1]; [|done].
    destruct Hquiet as (_ & _ & Hheap & _). simpl in Hheap.
    rewrite Hheap, Hsecond. simpl.
    by destruct (Live.call bodies l2 data m1).
Qed.

(** *** No method frees or resizes an array *)

Lemma keeps_memory_refl m : Live.keeps_memory m m.
Proof. intros Hheap. split; [done|]. by intros a Hsome. Qed.

Lemma keeps_memory_trans m1 m2 m3 :
  Live.keeps_memory m1 m2 → Live.keeps_memory m2 m3 →
  Live.keeps_memory m1 m3.
Proof.
  intros H12 H23 Hheap1.
  destruct (H12 Hheap1) as [Hheap2 Hkept12].
  destruct (H23 Hheap2) as [Hheap3 Hkept23].
  split; [done|]. intros a Hsome.
  destruct (Hkept12 a Hsome) as [Hsome2 Hlen12].
  destruct (Hkept23 a Hsome2) as [Hsome3 Hlen23].
  split; [done|congruence].
Qed.

Lemma keeps_memory_same m1 m2 m1' m2' :
  Live.heap m1' = Live.heap m1 → Live.next_array m1' = Live.next_array m1 →
  Live.heap m2' = Live.heap m2 → Live.next_array m2' = Live.next_array m2 →
  Live.keeps_memory m1 m2 → Live.keeps_memory m1' m2'.
Proof.
  unfold Live.keeps_memory, Live.heap_ok, Live.arrays_kept.
  intros -> -> -> ->. done.
Qed.

Lemma append_keeps_memory s vs m :
  Live.keeps_memory m (Live.append grow s vs m).2.
Proof.
  intros Hheap.
  split; [by apply append_heap_ok | by apply append_arrays_kept].
Qed.

Lemma stored_append_keeps_memory s vs m m0 r :
  Live.heap m0 = Live.heap m → Live.next_array m0 = Live.next_array m →
  Live.keeps_memory m
    (Live.set_evtListeners r (Live.append grow s vs m0).2).
Proof.
  intros Hheap Hnext.
  by apply (keeps_memory_same m0 (Live.append grow s vs m0).2);
    [..|apply append_keeps_memory].
Qed.

Lemma AddListener_keeps_memory evt ls m :
  Live.keeps_memory m (Live.AddListener grow evt ls m).
Proof.
  unfold Live.AddListener, Map_LoadOrStore.
  destruct (Live.evtListeners m !! evt) as [cur|]; destruct (_ && _);
    first
      [ by apply (keeps_memory_same m m)
      | match goal with
        | |- context [Live.append grow ?s ?v ?x] =>
            pose proof (stored_append_keeps_memory s v m x) as Hkeep;
            destruct (Live.append grow s v x) as [s' m'];
            by apply Hkeep
        end ].
Qed.

Lemma RemoveListener_keeps_memory evt f m :
  Live.keeps_memory m (Live.RemoveListener grow evt f m).2.
Proof.
  unfold Live.RemoveListener, Map_Load.
  destruct (Live.evtListeners m !! evt) as [s|]; [|apply keeps_memory_refl].
  destruct (Live.first_match _ _ _) as [i|]; [|apply keeps_memory_refl].
  match goal with
  | |- context [Live.append grow ?s ?v ?x] =>
      pose proof (stored_append_keeps_memory s v m x) as Hkeep;
      destruct (Live.append grow s v x) as [s' m']
  end.
  by apply Hkeep.
Qed.

(** X25: no method of the emitter frees an array or changes the number
    of its cells, and new arrays are put at free addresses.  When the
    listeners do the same, in a state that the methods can produce the
    loop of [Emit] reads inside the array it started with. *)
Theorem Emit_reads_inside_array evt ls f n name data m :
  Live.keeps_memory m (Live.AddListener grow evt ls m) ∧
  Live.keeps_memory m (Live.RemoveListener grow evt f m).2 ∧
  Live.keeps_memory m (Live.RemoveAllListeners evt m).2 ∧
  Live.keeps_memory m (Live.Clear m) ∧
  Live.keeps_memory m (Live.SetMaxListeners n m) ∧
  (Live.memory_safe bodies → Live.wf m →
     ∀ s, Live.evtListeners m !! name = Some s →
       Live.reads_in_range bodies (Live.len s) 0 (Live.array s) data m).
Proof.
  split; [apply AddListener_keeps_memory|].
  split; [apply RemoveListener_keeps_memory|].
  split; [by apply (keeps_memory_same m m)|].
  split; [by apply (keeps_memory_same m m)|].
  split.
  { unfold Live.SetMaxListeners. destruct (n <? 0);
      by apply (keeps_memory_same m m). }
  intros Hsafe (Hheap & Hslices & _) s Hs.
  destruct (Hslices _ _ Hs) as [Hlen Harr].
  destruct (decide (Live.cap s = 0%nat)) as [Hzero|Hpos].
  { replace (Live.len s) with 0%nat by lia. done. }
  destruct (Harr Hpos) as [Hsome Hcells].
  apply range_array_reads_in_range; try done. lia.
Qed.

End Memory.

(** * The emitter with lists is the emitter in memory *)

Section Refinement.
Context {Value World : Type}.
Variable grow : nat → nat → nat.
Variable outer : positive → list Value → World → @Outcome World.
Implicit Types (m : @Live.machine World) (s : Live.slice).
Implicit Types (f : Live.FuncValue) (vs ls : list Live.FuncValue).
Implicit Types (evt name : EventName) (data : list Value).

#[local] Abbreviation lift := (to_listener outer).
#[local] Abbreviation abs := (abstract outer).

(** *** Storing the result of append *)

Lemma wf_store_appended evt s0 vs m :
  Live.wf m → Live.slice_ok m s0 →
  (∀ name s, name ≠ evt → Live.evtListeners m !! name = Some s →
     Live.cap s ≠ 0%nat → Live.cap s0 ≠ 0%nat →
     Live.array s ≠ Live.array s0) →
  Live.wf (Live.set_evtListeners
             (<[evt := (Live.append grow s0 vs m).1]> (Live.evtListeners m))
             (Live.append grow s0 vs m).2).
Proof.
  intros (Hheap & Hslices & Hapart) Hs0 Hapart0.
  pose proof (append_heap_ok grow s0 vs m Hheap) as Hheap'.
  pose proof (append_arrays_kept grow s0 vs m Hheap) as Hkept.
  pose proof (append_slice_ok grow s0 vs m Hheap Hs0) as Hnew.
  split; [done|]. split.
  - intros name s. simpl. rewrite lookup_insert.
    case_decide as Heq.
    + intros [= <-]. by apply slice_ok_set_evtListeners.
    + intros Hs. apply slice_ok_set_evtListeners.
      eapply slice_ok_arrays_kept; [exact Hkept|]. by eapply Hslices.
  - assert (Hfresh : ∀ name s,
              name ≠ evt → Live.evtListeners m !! name = Some s →
              Live.cap s ≠ 0%nat →
              Live.cap (Live.append grow s0 vs m).1 ≠ 0%nat →
              Live.array s ≠ Live.array (Live.append grow s0 vs m).1).
    { intros name s Hne Hs Hcap Hcap' Heq.
      destruct (Hslices _ _ Hs) as [_ Harr].
      destruct (Harr Hcap) as [[l Hl] _].
      destruct (append_array grow s0 vs m) as [Hsame|[Hnext _]].
      - rewrite Hsame in Heq.
        destruct (append_cap grow s0 vs m Hcap' Hsame) as [Hcap0|Hnext].
        + by eapply (Hapart0 name s).
        + rewrite Heq, Hnext in Hl.
          by rewrite (Hheap (Live.next_array m)) in Hl by lia.
      - rewrite Heq, Hnext in Hl.
        by rewrite (Hheap (Live.next_array m)) in Hl by lia. }
    intros name1 name2 s1 s2 Hne. simpl. rewrite !lookup_insert.
    repeat case_decide; subst; try done;
      intros Hs1 Hs2 Hcap1 Hcap2 Heq; simplify_eq.
    + exact (Hfresh name2 s2 (not_eq_sym Hne) Hs2 Hcap2 Hcap1 (eq_sym Heq)).
    + exact (Hfresh name1 s1 Hne Hs1 Hcap1 Hcap2 Heq).
    + exact (Hapart name1 name2 s1 s2 Hne Hs1 Hs2 Hcap1 Hcap2 Heq).
Qed.

Lemma elems_appended_other evt name s0 s vs m :
  Live.wf m → Live.slice_ok m s0 →
  (∀ name s, name ≠ evt → Live.evtListeners m !! name = Some s →
     Live.cap s ≠ 0%nat → Live.cap s0 ≠ 0%nat →
     Live.array s ≠ Live.array s0) →
  name ≠ evt → Live.evtListeners m !! name = Some s →
  Live.elems (Live.heap (Live.append grow s0 vs m).2) s
  = Live.elems (Live.heap m) s.
Proof.
  intros (Hheap & Hslices & _) [Hlen0 _] Hapart0 Hne Hs.
  unfold Live.elems.
  destruct (Hslices _ _ Hs) as [Hlen Harr].
  destruct (decide (Live.cap s = 0%nat)) as [Hzero|Hpos].
  { replace (Live.len s) with 0%nat by lia. done. }
  destruct (Harr Hpos) as [Hsome _].
  rewrite append_cells; [done|done|done|].
  destruct (decide (Live.cap s0 = 0%nat)) as [Hzero0|Hpos0].
  - destruct vs; [by right; left|]. right; right. simpl. lia.
  - left. by eapply Hapart0.
Qed.

(** *** RemoveListener in memory *)

Lemma live_first_match_lt p vs : ∀ i0 i,
  Live.first_match p vs i0 = Some i → (i0 ≤ i < i0 + length vs)%nat.
Proof.
  induction vs as [|v vs IH]; intros i0 i; simpl; [done|].
  destruct (Live.code_pointer v =? p)%N.
  - intros [= <-]. lia.
  - intros Hfound. apply IH in Hfound. lia.
Qed.

Lemma live_RemoveListener_found evt f m s i :
  Live.evtListeners m !! evt = Some s →
  Live.first_match (Live.code_pointer f) (Live.elems (Live.heap m) s) 0
  = Some i →
  Live.RemoveListener grow evt f m
  = (true,
     Live.set_evtListeners
       (<[evt := (Live.append grow
                    (Live.mkSlice (Live.array s) i (Live.cap s))
                    (drop (S i) (Live.elems (Live.heap m) s)) m).1]>
          (Live.evtListeners m))
       (Live.append grow (Live.mkSlice (Live.array s) i (Live.cap s))
          (drop (S i) (Live.elems (Live.heap m) s)) m).2).
Proof.
  intros Hs Hfound. unfold Live.RemoveListener, Map_Load, Map_Store.
  rewrite Hs, Hfound.
  destruct (Live.append grow _ _ m) as [s' m'] eqn:Happ. simpl.
  pose proof (append_registry grow (Live.mkSlice (Live.array s) i (Live.cap s))
                (drop (S i) (Live.elems (Live.heap m) s)) m) as (Hreg & _).
  rewrite Happ in Hreg. simpl in Hreg. by rewrite Hreg.
Qed.

Lemma live_RemoveListener_missing evt f m :
  match Live.evtListeners m !! evt with
  | Some s =>
      Live.first_match (Live.code_pointer f) (Live.elems (Live.heap m) s) 0
      = None
  | None => True
  end →
  Live.RemoveListener grow evt f m = (false, m).
Proof.
  unfold Live.RemoveListener, Map_Load.
  destruct (Live.evtListeners m !! evt) as [s|]; [|done]. by intros ->.
Qed.

Lemma cut_slice_ok m s i :
  Live.slice_ok m s → (i ≤ Live.len s)%nat →
  Live.slice_ok m (Live.mkSlice (Live.array s) i (Live.cap s)).
Proof. intros [Hlen Harr] Hi. split; simpl; [lia|done]. Qed.

Lemma live_RemoveListener_wf evt f m :
  Live.wf m → Live.wf (Live.RemoveListener grow evt f m).2.
Proof.
  intros Hwf.
  destruct (Live.evtListeners m !! evt) as [s|] eqn:Hs.
  - destruct (Live.first_match (Live.code_pointer f)
                (Live.elems (Live.heap m) s) 0) as [i|] eqn:Hfound.
    + rewrite (live_RemoveListener_found evt f m s i) by done. simpl.
      pose proof Hwf as (_ & Hslices & Hapart).
      apply live_first_match_lt in Hfound.
      unfold Live.elems in Hfound. rewrite length_take in Hfound.
      apply wf_store_appended; [done| |].
      * apply cut_slice_ok; [by eapply Hslices|lia].
      * intros name s' Hne Hs' Hcap Hcap0. simpl in *.
        by eapply (Hapart name evt s' s).
    + rewrite live_RemoveListener_missing; [done|]. by rewrite Hs.
  - rewrite live_RemoveListener_missing; [done|]. by rewrite Hs.
Qed.

(** *** The two emitters, method by method *)

Lemma Pointer_lift f : Pointer (lift f) = Live.code_pointer f.
Proof. by destruct f. Qed.

Lemma first_match_lift p vs : ∀ i0,
  first_match p (lift <$> vs) i0 = Live.first_match p vs i0.
Proof.
  induction vs as [|v vs IH]; intros i0; simpl; [done|].
  rewrite Pointer_lift. by destruct (Live.code_pointer v =? p)%N.
Qed.

Lemma lookup_abs name m :
  evtListeners (abs m) !! name
  = (λ s, lift <$> Live.elems (Live.heap m) s)
      <$> Live.evtListeners m !! name.
Proof. unfold abstract. simpl. by rewrite lookup_fmap. Qed.

Lemma Listeners_abs name m :
  Listeners name (abs m) = lift <$> Live.Listeners name m.
Proof.
  unfold Listeners, Live.Listeners, Map_Load. rewrite lookup_abs.
  by destruct (Live.evtListeners m !! name).
Qed.

Lemma ListenerCount_abs name m :
  Live.wf m → ListenerCount name (abs m) = Live.ListenerCount name m.
Proof.
  intros Hwf. rewrite ListenerCount_length, Listeners_abs, length_fmap.
  by rewrite live_ListenerCount_length.
Qed.

Lemma abs_AddListener evt ls m :
  Live.wf m →
  abs (Live.AddListener grow evt ls m)
  = AddListener evt (lift <$> ls) (abs m).
Proof.
  intros Hwf.
  destruct (decide (Live.at_capacity evt m)) as [Hcap|Hroom].
  - rewrite live_AddListener_full by done.
    destruct Hcap as [Hpos Hfull].
    rewrite AddListener_full; [done|done|].
    by rewrite ListenerCount_abs.
  - rewrite AddListener_accepted.
    2:{ rewrite ListenerCount_abs by done. exact Hroom. }
    pose proof (live_AddListener_wf grow evt ls m Hwf) as Hwf'.
    unfold abstract at 1. f_equal.
    { apply live_AddListener_fields. }
    apply map_eq. intros name.
    rewrite lookup_fmap. rewrite lookup_insert.
    pose proof (live_Listeners_AddListener grow evt name ls m Hwf Hroom)
      as Hls.
    revert Hls. unfold Live.Listeners, Map_Load.
    rewrite live_AddListener_accepted by done. simpl.
    rewrite lookup_insert. case_decide as Heq.
    + subst name. rewrite bool_decide_eq_true_2 by done. simpl.
      intros ->. rewrite fmap_app. f_equal. f_equal.
      rewrite Listeners_abs. done.
    + rewrite bool_decide_eq_false_2 by done. rewrite lookup_fmap.
      destruct (Live.evtListeners m !! name) as [s|]; simpl; [|done].
      by intros ->.
Qed.

Lemma abs_RemoveListener evt f m :
  Live.wf m →
  (Live.RemoveListener grow evt f m).1 = (RemoveListener evt (lift f) (abs m)).1 ∧
  abs (Live.RemoveListener grow evt f m).2
  = (RemoveListener evt (lift f) (abs m)).2.
Proof.
  intros Hwf. unfold RemoveListener at 1 2, Map_Load.
  rewrite lookup_abs, Pointer_lift.
  destruct (Live.evtListeners m !! evt) as [s|] eqn:Hs; simpl.
  2:{ rewrite live_RemoveListener_missing; [done|]. by rewrite Hs. }
  rewrite first_match_lift.
  destruct (Live.first_match (Live.code_pointer f)
              (Live.elems (Live.heap m) s) 0) as [i|] eqn:Hfound.
  2:{ rewrite live_RemoveListener_missing; [done|]. by rewrite Hs, Hfound. }
  rewrite (live_RemoveListener_found evt f m s i) by done. simpl.
  split; [done|].
  pose proof Hwf as (Hheap & Hslices & Hapart).
  pose proof (live_first_match_lt _ _ _ _ Hfound) as Hi.
  assert (Hlen : (i < Live.len s)%nat).
  { unfold Live.elems in Hi. rewrite length_take in Hi. lia. }
  pose proof (cut_slice_ok m s i (Hslices _ _ Hs) ltac:(lia)) as Hcut.
  assert (Hapart0 : ∀ name s', name ≠ evt →
            Live.evtListeners m !! name = Some s' → Live.cap s' ≠ 0%nat →
            Live.cap (Live.mkSlice (Live.array s) i (Live.cap s)) ≠ 0%nat →
            Live.array s'
            ≠ Live.array (Live.mkSlice (Live.array s) i (Live.cap s))).
  { intros name s' Hne Hs' Hcap Hcap0. simpl in *.
    by eapply (Hapart name evt s' s). }
  unfold abstract at 1. simpl.
  destruct (append_registry grow (Live.mkSlice (Live.array s) i (Live.cap s))
              (drop (S i) (Live.elems (Live.heap m) s)) m) as (_ & -> & _).
  unfold Map_Store. f_equal. apply map_eq. intros name.
  rewrite lookup_fmap, !lookup_insert. case_decide as Heq.
  - subst name. simpl. f_equal. rewrite append_elems by done.
    rewrite fmap_app, <- fmap_take, <- fmap_drop. f_equal. f_equal.
    unfold Live.elems. simpl. rewrite take_take. f_equal. lia.
  - rewrite lookup_fmap.
    destruct (Live.evtListeners m !! name) as [s'|] eqn:Hs'; simpl; [|done].
    f_equal. f_equal.
    by apply (elems_appended_other evt name).
Qed.

Lemma abs_RemoveAllListeners evt m :
  (Live.RemoveAllListeners evt m).1 = (RemoveAllListeners evt (abs m)).1 ∧
  abs (Live.RemoveAllListeners evt m).2 = (RemoveAllListeners evt (abs m)).2.
Proof.
  unfold Live.RemoveAllListeners, RemoveAllListeners, Map_Delete, Map_Load.
  simpl. rewrite !lookup_delete_eq. split; [done|].
  unfold abstract. simpl. by rewrite fmap_delete.
Qed.

Lemma live_RemoveAllListeners_wf evt m :
  Live.wf m → Live.wf (Live.RemoveAllListeners evt m).2.
Proof.
  intros (Hheap & Hslices & Hapart). simpl. unfold Map_Delete.
  split; [done|]. split.
  - intros name s Hs. simpl in Hs. apply lookup_delete_Some in Hs as [_ Hs].
    by eapply Hslices.
  - intros name1 name2 s1 s2 Hne Hs1 Hs2. simpl in Hs1, Hs2.
    apply lookup_delete_Some in Hs1 as [_ Hs1].
    apply lookup_delete_Some in Hs2 as [_ Hs2]. by eapply Hapart.
Qed.

Lemma live_Clear_wf m : Live.wf m → Live.wf (Live.Clear m).
Proof.
  intros (Hheap & _ & _). split; [done|]. split.
  - intros name s. simpl. by rewrite lookup_empty.
  - intros name1 name2 s1 s2 _. simpl. by rewrite lookup_empty.
Qed.

Lemma abs_Clear m : abs (Live.Clear m) = Clear (abs m).
Proof. unfold abstract, Clear. simpl. by rewrite fmap_empty. Qed.

Lemma abs_SetMaxListeners n m :
  abs (Live.SetMaxListeners n m) = SetMaxListeners n (abs m).
Proof.
  unfold Live.SetMaxListeners, SetMaxListeners. simpl. by destruct (n <? 0).
Qed.

(** *** Emit *)

Lemma range_array_outside ls : ∀ i a data m,
  take (length ls) (drop i (Live.cells (Live.heap m) a)) = ls →
  to_call outer
    <$> (Live.range_array (outside outer) (length ls) i a data m).1
  = (range_call (lift <$> ls) data (Live.world m)).1 ∧
  to_outcome (Live.range_array (outside outer) (length ls) i a data m).2
  = (range_call (lift <$> ls) data (Live.world m)).2 ∧
  Live.same_emitter
    (Live.after (Live.range_array (outside outer) (length ls) i a data m).2) m.
Proof.
  induction ls as [|l ls IH]; intros i a data m Hcells; [done|].
  apply take_drop_cons in Hcells as [Hl Hrest].
  rewrite fmap_cons. cbn [length Live.range_array range_call].
  rewrite Hl. cbn [default from_option id].
  assert (Hcall : Live.call (outside outer) l data m
                  = match invoke (lift l) data (Live.world m) with
                    | Returned w => Returned (Live.set_world w m)
                    | Panicked w => Panicked (Live.set_world w m)
                    end).
  { destruct l as [|addr code]; [|done]. simpl. by destruct m. }
  rewrite Hcall.
  destruct (invoke (lift l) data (Live.world m)) as [w1|w1]; [|done].
  destruct (IH (S i) a data (Live.set_world w1 m) Hrest)
    as (Hcalls & Hout & Hsame).
  change (Live.world (Live.set_world w1 m)) with w1 in Hcalls, Hout.
  destruct (Live.range_array (outside outer) (length ls) (S i) a data
              (Live.set_world w1 m)) as [cs o].
  destruct (range_call (lift <$> ls) data w1) as [cs' o'].
  cbn [fst snd] in *.
  split; [by rewrite fmap_cons, Hcalls|]. split; [done|].
  by eapply same_emitter_trans.
Qed.

Lemma abs_Emit name data m :
  Live.wf m →
  calls (Emit name data (abs m) (Live.world m))
  = to_call outer <$> (Live.Emit (outside outer) name data m).1 ∧
  outcome (Emit name data (abs m) (Live.world m))
  = to_outcome (Live.Emit (outside outer) name data m).2 ∧
  Live.same_emitter (Live.after (Live.Emit (outside outer) name data m).2) m.
Proof.
  intros Hwf. pose proof (live_ListenerCount_length name m Hwf) as Hcount.
  revert Hcount. rewrite Emit_calls, Emit_outcome, Listeners_abs.
  unfold Live.Emit, Live.Listeners, Live.ListenerCount, Map_Load.
  destruct (Live.evtListeners m !! name) as [s|] eqn:Hs; [|done].
  intros Hlen.
  assert (Hn : Live.len s = length (Live.elems (Live.heap m) s)) by lia.
  rewrite Hn.
  destruct (range_array_outside (Live.elems (Live.heap m) s) 0
              (Live.array s) data m) as (Hcalls & Hout & Hsame).
  { by rewrite <- Hn. }
  done.
Qed.

Lemma abs_Len m : Len (abs m) = Live.Len m.
Proof.
  unfold Len, Live.Len, Map_Range, abstract. simpl.
  by rewrite map_fold_fmap.
Qed.

Lemma abs_EventNames m : EventNames (abs m) = Live.EventNames m.
Proof.
  unfold EventNames, Live.EventNames, Map_Range, abstract. simpl.
  by rewrite map_fold_fmap.
Qed.

(** X24: the emitter with lists is the emitter in memory seen through its
    slices.  In a state that the methods can produce, every method of the
    emitter in memory gives the result of the method on lists and a state
    that the same method on lists produces, and it keeps the state one
    that the methods can produce; the fresh emitter is such a state.  For
    closures that act on the world outside the emitter, [Emit] makes the
    same calls with the same outcome in both, and leaves the emitter and
    its arrays as they are. *)
Theorem lists_refine_memory evt ls f n data m :
  Live.wf m →
  (abs (Live.AddListener grow evt ls m) = AddListener evt (lift <$> ls) (abs m) ∧
   Live.wf (Live.AddListener grow evt ls m)) ∧
  ((Live.RemoveListener grow evt f m).1
   = (RemoveListener evt (lift f) (abs m)).1 ∧
   abs (Live.RemoveListener grow evt f m).2
   = (RemoveListener evt (lift f) (abs m)).2 ∧
   Live.wf (Live.RemoveListener grow evt f m).2) ∧
  ((Live.RemoveAllListeners evt m).1 = (RemoveAllListeners evt (abs m)).1 ∧
   abs (Live.RemoveAllListeners evt m).2 = (RemoveAllListeners evt (abs m)).2 ∧
   Live.wf (Live.RemoveAllListeners evt m).2) ∧
  (abs (Live.Clear m) = Clear (abs m) ∧ Live.wf (Live.Clear m)) ∧
  (abs (Live.SetMaxListeners n m) = SetMaxListeners n (abs m) ∧
   Live.wf (Live.SetMaxListeners n m)) ∧
  (Live.ListenerCount evt m = ListenerCount evt (abs m) ∧
   lift <$> Live.Listeners evt m = Listeners evt (abs m) ∧
   Live.GetMaxListeners m = GetMaxListeners (abs m) ∧
   Live.Len m = Len (abs m) ∧
   Live.EventNames m = EventNames (abs m)) ∧
  (to_call outer <$> (Live.Emit (outside outer) evt data m).1
   = calls (Emit evt data (abs m) (Live.world m)) ∧
   to_outcome (Live.Emit (outside outer) evt data m).2
   = outcome (Emit evt data (abs m) (Live.world m)) ∧
   Live.same_emitter (Live.after (Live.Emit (outside outer) evt data m).2) m) ∧
  (∀ w : World, Live.wf (Live.New w) ∧ abs (Live.New w) = New).
Proof.
  intros Hwf.
  split; [split; [by apply abs_AddListener|by apply live_AddListener_wf]|].
  split.
  { destruct (abs_RemoveListener evt f m Hwf) as [Hres Habs].
    split; [done|]. split; [done|]. by apply live_RemoveListener_wf. }
  split.
  { destruct (abs_RemoveAllListeners evt m) as [Hres Habs].
    split; [done|]. split; [done|]. by apply live_RemoveAllListeners_wf. }
  split; [split; [apply abs_Clear|by apply live_Clear_wf]|].
  split; [split; [apply abs_SetMaxListeners|by apply wf_SetMaxListeners]|].
  split.
  { rewrite ListenerCount_abs, Listeners_abs, abs_Len, abs_EventNames by done.
    done. }
  split.
  { by destruct (abs_Emit evt data m Hwf) as (-> & -> & Hsame). }
  intros w. split; [apply wf_New|].
  unfold abstract, New. simpl. by rewrite fmap_empty.
Qed.

End Refinement.

(** * The emitter in memory at the sample closures *)



Lemma two_of_three_retained_witness :
  let pre := [[LiveSample.SWAP]; [LiveSample.L2]] in
  let m := Live.add_batches Live.doubling "a" (pre ++ [[LiveSample.L3]])
             (Live.SetMaxListeners 2 LiveSample.fresh) in
  concat pre = [LiveSample.SWAP; LiveSample.L2] ∧
  concat ([] : list (list Live.FuncValue)) = [] ∧
  Live.returned (Live.call LiveSample.bodies LiveSample.SWAP ["x"] m) ∧
  Live.ListenerCount "a" m = 2 ∧
  (∃ l, (Live.Emit LiveSample.bodies "a" ["x"] m).1
        = [(LiveSample.SWAP, ["x"]); (l, ["x"])]) ∧
  (Live.Emit LiveSample.bodies "a" ["x"] m).1
  = [(LiveSample.SWAP, ["x"]); (LiveSample.L4, ["x"])].
Proof.
  intros pre m.
  assert (Hpre : concat pre = [LiveSample.SWAP; LiveSample.L2]) by reflexivity.
  assert (Hpost : concat ([] : list (list Live.FuncValue)) = []) by reflexivity.
  assert (Hret : Live.returned
                   (Live.call LiveSample.bodies LiveSample.SWAP ["x"] m)).
  { vm_compute. exact I. }
  split; [exact Hpre|]. split; [exact Hpost|]. split; [exact Hret|].
  destruct (two_of_three_retained Live.doubling LiveSample.bodies "a"
              LiveSample.SWAP LiveSample.L2 LiveSample.L3 pre [] ["x"] []
              Hpre Hpost) as (_ & Hcount & Hcalls & _).
  split; [exact Hcount|]. split; [exact (Hcalls Hret)|]. reflexivity.
Defined.

(** C2 as stated fails in three ways.  The capacity is checked once per
    call, before the listeners of the call are appended, so 3 listeners
    passed in one call to a name without listeners are all registered and
    [Emit] calls all 3.  With 2 listeners retained [Emit] makes one call
    only when the first listener panics.  And when the first listener
    removes itself and registers another one while [Emit] runs, the second
    call goes to that one and not to the second retained listener. *)
Lemma two_of_three_retained_counterexample :
  let together := [[LiveSample.L1; LiveSample.L2; LiveSample.L3]] in
  let panicking := [[LiveSample.user_joined]; [LiveSample.L2]; [LiveSample.L3]] in
  let swapping := [[LiveSample.SWAP]; [LiveSample.L2]; [LiveSample.L3]] in
  concat together = [LiveSample.L1; LiveSample.L2; LiveSample.L3] ∧
  Live.ListenerCount "a"
    (Live.add_batches Live.doubling "a" together
       (Live.SetMaxListeners 2 LiveSample.fresh)) = 3 ∧
  ¬ Live.two_retained_two_called Live.doubling LiveSample.bodies "a" together
      ["x"] [] ∧
  concat panicking = [LiveSample.user_joined; LiveSample.L2; LiveSample.L3] ∧
  (Live.Emit LiveSample.bodies "a" []
     (Live.add_batches Live.doubling "a" panicking
        (Live.SetMaxListeners 2 LiveSample.fresh))).1
  = [(LiveSample.user_joined, [])] ∧
  ¬ Live.two_retained_two_called Live.doubling LiveSample.bodies "a" panicking
      [] [] ∧
  concat swapping = [LiveSample.SWAP; LiveSample.L2; LiveSample.L3] ∧
  Live.Listeners "a"
    (Live.add_batches Live.doubling "a" swapping
       (Live.SetMaxListeners 2 LiveSample.fresh))
  = [LiveSample.SWAP; LiveSample.L2] ∧
  (Live.Emit LiveSample.bodies "a" ["x"]
     (Live.add_batches Live.doubling "a" swapping
        (Live.SetMaxListeners 2 LiveSample.fresh))).1
  = [(LiveSample.SWAP, ["x"]); (LiveSample.L4, ["x"])] ∧
  ¬ Live.two_retained_two_called Live.doubling LiveSample.bodies "a" swapping
      ["x"] [].
Proof.
  intros together panicking swapping.
  split; [reflexivity|]. split; [reflexivity|]. split.
  { unfold Live.two_retained_two_called. intros [Hcount _].
    vm_compute in Hcount. discriminate. }
  split; [reflexivity|]. split; [reflexivity|]. split.
  { unfold Live.two_retained_two_called. intros [_ Hcalls].
    vm_compute in Hcalls. discriminate. }
  split; [reflexivity|]. split; [reflexivity|]. split; [reflexivity|].
  unfold Live.two_retained_two_called. intros [_ Hcalls].
  vm_compute in Hcalls. discriminate.
Qed.

(** C4: the code does not do what the claim says when two closures of one
    function literal are involved.  [reflect] reports the code pointer,
    which the two share: with only the closure A registered,
    [RemoveListener(name, B)] for the other closure B answers [true] and
    removes A, where the claim has it answer [false] and leave the
    registry alone.  In memory the two closures are at different
    addresses, and the result is the same. *)
Theorem RemoveListener_removes_other_closure :
  let A := recorder 5 "A" in
  let B := recorder 5 "B" in
  let e := On "a" [A] Sample.fresh in
  let m := Live.On Live.doubling "a" [Live.Closure 1 5] LiveSample.fresh in
  A ≠ B ∧ Listeners "a" e = [A] ∧
  (RemoveListener "a" B e).1 = true ∧
  Listeners "a" (RemoveListener "a" B e).2 = [] ∧
  ListenerCount "a" (RemoveListener "a" B e).2 = 0 ∧
  Live.Closure 1 5 ≠ Live.Closure 2 5 ∧
  Live.Listeners "a" m = [Live.Closure 1 5] ∧
  (Live.RemoveListener Live.doubling "a" (Live.Closure 2 5) m).1 = true ∧
  Live.Listeners "a"
    (Live.RemoveListener Live.doubling "a" (Live.Closure 2 5) m).2 = [].
Proof.
  intros A B e m. split.
  { intros Heq. injection Heq as Hbody.
    apply (f_equal (λ body, body [] [])) in Hbody. discriminate. }
  repeat split; try reflexivity. discriminate.
Qed.

Lemma sample_bodies_memory_safe : Live.memory_safe LiveSample.bodies.
Proof.
  intros addr data m. unfold LiveSample.bodies.
  repeat case_decide; simpl; try apply keeps_memory_refl;
    try (by apply (keeps_memory_same m m)).
  - eapply keeps_memory_trans; [|apply RemoveListener_keeps_memory].
    by apply (keeps_memory_same m m).
  - eapply keeps_memory_trans; [|apply AddListener_keeps_memory].
    eapply keeps_memory_trans; [|apply RemoveListener_keeps_memory].
    by apply (keeps_memory_same m m).
  - destruct data as [|user [|room data]]; simpl;
      try apply keeps_memory_refl.
    by apply (keeps_memory_same m m).
Qed.

Lemma Emit_reads_inside_array_witness :
  let m := Live.register_all Live.doubling
             [("a", [LiveSample.SELF; LiveSample.L2; LiveSample.L3])]
             LiveSample.fresh in
  Live.memory_safe LiveSample.bodies ∧ Live.wf m ∧
  Live.evtListeners m !! "a" = Some (Live.mkSlice 1 3 3) ∧
  Live.reads_in_range LiveSample.bodies 3 0 1 ["x"] m.
Proof.
  intros m.
  assert (Hwf : Live.wf m).
  { apply live_register_all_wf, wf_New. }
  assert (Hs : Live.evtListeners m !! "a" = Some (Live.mkSlice 1 3 3))
    by reflexivity.
  split; [exact sample_bodies_memory_safe|]. split; [exact Hwf|].
  split; [exact Hs|].
  destruct (Emit_reads_inside_array Live.doubling LiveSample.bodies "a" []
              Live.NilFunc 0 "a" ["x"] m) as (_ & _ & _ & _ & _ & Hreads).
  exact (Hreads sample_bodies_memory_safe Hwf _ Hs).
Defined.

Lemma lists_refine_memory_witness :
  let m := Live.register_all Live.doubling
             [("a", [LiveSample.L1; LiveSample.L2])] LiveSample.fresh in
  Live.wf m ∧
  abstract LiveSample.outer
    (Live.AddListener Live.doubling "a" [LiveSample.L3] m)
  = AddListener "a" [to_listener LiveSample.outer LiveSample.L3]
      (abstract LiveSample.outer m) ∧
  to_call LiveSample.outer
    <$> (Live.Emit (outside LiveSample.outer) "a" ["x"] m).1
  = calls (Emit "a" ["x"] (abstract LiveSample.outer m) []).
Proof.
  intros m.
  assert (Hwf : Live.wf m).
  { apply live_register_all_wf, wf_New. }
  split; [exact Hwf|].
  destruct (lists_refine_memory Live.doubling LiveSample.outer "a"
              [LiveSample.L3] Live.NilFunc 0 ["x"] m Hwf)
    as ((Hadd & _) & _ & _ & _ & _ & _ & (Hcalls & _) & _).
  split; [exact Hadd | exact Hcalls].
Defined.
